(** * requires-writer: route ranking, match-path resolution, component
      catalogue and change-suppressed emission

    A shallow embedding of
    [packages/gatsby/src/bootstrap/requires-writer.ts].

    JavaScript strings are sequences of UTF-16 code units, modelled as
    [list N].  Numbers that the module computes with are small integers and
    are modelled as [Z].  Functions of other packages (the router's [match],
    [localeCompare], the digest, path helpers) are taken as fields of a
    [Host] record. *)

From Stdlib Require Import ZArith NArith List Bool Lia String Ascii.
From Stdlib Require Import Sorting.Sorted Sorting.Permutation.
Import ListNotations.

Local Open Scope Z_scope.

(** ** JavaScript strings *)

Module JsString.

Definition jsstring := list N.

Definition unit_of_ascii (a : ascii) : N := N_of_ascii a.

(** A literal whose characters are all ASCII. *)
Definition js (s : string) : jsstring := map unit_of_ascii (list_ascii_of_string s).

Definition eqb (a b : jsstring) : bool :=
  if list_eq_dec N.eq_dec a b then true else false.

(** [s.length > 0], the truthiness of a string. *)
Definition truthy (s : jsstring) : bool :=
  match s with [] => false | _ :: _ => true end.

(** The relational operators [<] and [>] on two strings: lexicographic
    order of the code units. *)
Fixpoint ltb (a b : jsstring) : bool :=
  match a, b with
  | _, [] => false
  | [], _ :: _ => true
  | x :: a', y :: b' =>
      if (x <? y)%N then true
      else if (y <? x)%N then false
      else ltb a' b'
  end.

Definition SLASH : N := 47.
Definition COLON : N := 58.
Definition STAR : N := 42.
Definition DQUOTE : N := 34.
Definition LF : N := 10.
Definition CR : N := 13.
Definition LS : N := 8232. (* U+2028 *)
Definition PS : N := 8233. (* U+2029 *)

Definition is_slash (c : N) : bool := (c =? SLASH)%N.

(** Line terminators, the code units the regular-expression atom [.]
    refuses (no [s] flag). *)
Definition is_line_terminator (c : N) : bool :=
  (c =? LF)%N || (c =? CR)%N || (c =? LS)%N || (c =? PS)%N.

Fixpoint drop_slashes (s : jsstring) : jsstring :=
  match s with
  | [] => []
  | c :: t => if is_slash c then drop_slashes t else s
  end.

(** [s.split("/")]: the empty string splits into one empty piece. *)
Fixpoint split_slash (s : jsstring) : list jsstring :=
  match s with
  | [] => [[]]
  | c :: t =>
      if is_slash c then [] :: split_slash t
      else match split_slash t with
           | seg :: rest => (c :: seg) :: rest
           | [] => [[c]]
           end
  end.

(** [pieces.join(sep)]. *)
Fixpoint join (sep : jsstring) (pieces : list jsstring) : jsstring :=
  match pieces with
  | [] => []
  | [p] => p
  | p :: rest => p ++ sep ++ join sep rest
  end.

End JsString.

Import JsString.

(** ** Route ranking (copied from the router) *)

(** [paramRe = /^:(.+)/] tested on a segment: a colon at index 0 and then
    at least one code unit matched by [.]; the greedy [.+] starts at index 1,
    so the code unit there decides. *)
Definition paramRe_test (segment : jsstring) : bool :=
  match segment with
  | c :: d :: _ => (c =? COLON)%N && negb (is_line_terminator d)
  | _ => false
  end.

Definition SEGMENT_POINTS : Z := 4.
Definition STATIC_POINTS : Z := 3.
Definition DYNAMIC_POINTS : Z := 2.
Definition SPLAT_PENALTY : Z := 1.
Definition ROOT_POINTS : Z := 1.

Definition isRootSegment (segment : jsstring) : bool := eqb segment [].
Definition isDynamic (segment : jsstring) : bool := paramRe_test segment.
Definition isSplat (segment : jsstring) : bool := eqb segment [STAR].

(** The global replace of [/(^\/+|\/+$)/g] by the empty string, scanning
    from an index greater than 0: there only the second alternative can
    match, and it matches exactly when what remains is a non-empty run of
    slashes. *)
Fixpoint replace_scan (s : jsstring) : jsstring :=
  match s with
  | [] => []
  | c :: t =>
      if is_slash c && forallb is_slash t then []
      else c :: replace_scan t
  end.

(** The same replace from index 0: the first alternative [^\/+] is tried
    first and takes the whole leading run. *)
Definition replace_slashes (uri : jsstring) : jsstring :=
  match uri with
  | [] => []
  | c :: t =>
      if is_slash c then replace_scan (drop_slashes t)
      else replace_scan uri
  end.

Definition segmentize (uri : jsstring) : list jsstring :=
  split_slash (replace_slashes uri).

Definition rankStep (score : Z) (segment : jsstring) : Z :=
  let score := score + SEGMENT_POINTS in
  if isRootSegment segment then score + ROOT_POINTS
  else if isDynamic segment then score + DYNAMIC_POINTS
  else if isSplat segment then score - (SEGMENT_POINTS + SPLAT_PENALTY)
  else score + STATIC_POINTS.

Definition rankRoute (path : jsstring) : Z :=
  fold_left rankStep (segmentize path) 0.

(** ** The scoring rule as the specification words it *)

Module ScoreSpec.

(** Strip the leading run and the trailing run of slashes, split on
    slashes. *)
Definition segments (p : jsstring) : list jsstring :=
  split_slash (rev (drop_slashes (rev (drop_slashes p)))).

(** "starts with ':' followed by at least one character". *)
Definition colon_then_any (segment : jsstring) : bool :=
  match segment with
  | c :: _ :: _ => (c =? COLON)%N
  | _ => false
  end.

(** What the code requires: the character after the colon is not a line
    terminator. *)
Definition colon_then_dot (segment : jsstring) : bool :=
  match segment with
  | c :: d :: _ => (c =? COLON)%N && negb (is_line_terminator d)
  | _ => false
  end.

Definition points (dynamic : jsstring -> bool) (segment : jsstring) : Z :=
  4 + (if eqb segment [] then 1
       else if dynamic segment then 2
       else if eqb segment [STAR] then -5
       else 3).

Definition total (dynamic : jsstring -> bool) (p : jsstring) : Z :=
  fold_right Z.add 0 (map (points dynamic) (segments p)).

End ScoreSpec.

(** ** Pages, components and match paths *)

Inductive PageMode := SSG | DSG | SSR.

Definition PageMode_eqb (a b : PageMode) : bool :=
  match a, b with
  | SSG, SSG | DSG, DSG | SSR, SSR => true
  | _, _ => false
  end.

(** The fields of [IGatsbyPage] this module reads.  [matchPath] is
    optional: [None] is [undefined]. *)
Record Page := mkPage {
  path : jsstring;
  component : jsstring;
  componentChunkName : jsstring;
  matchPath : option jsstring
}.

Record IGatsbyPageComponent := mkComponent {
  c_component : jsstring;
  c_componentChunkName : jsstring
}.

Record IGatsbyPageMatchPath := mkMatchPath {
  mp_path : jsstring;
  mp_matchPath : jsstring
}.

(** [IMatchPathEntry]: the page spread, with [matchPath] narrowed to a
    string, [index] and [score]. *)
Record IMatchPathEntry := mkEntry {
  e_page : Page;
  e_matchPath : jsstring;
  e_index : nat;
  e_score : Z
}.

(** Truthiness of [page.matchPath]: defined and not the empty string. *)
Definition matchPath_truthy (page : Page) : bool :=
  match matchPath page with
  | Some m => truthy m
  | None => false
  end.

(** What the module takes from its surroundings: the compile flag, the
    environment, and functions of other packages. *)
Record Host := mkHost {
  (** [_CFLAGS_.GATSBY_MAJOR === `4`] *)
  GATSBY_MAJOR_4 : bool;
  getPageMode : Page -> PageMode;
  (** truthiness of the router's [match(pattern, uri)] *)
  route_match : jsstring -> jsstring -> bool;
  (** [a.localeCompare(b)] *)
  localeCompare : jsstring -> jsstring -> Z;
  (** the hexadecimal MD5 digest *)
  md5_hex : jsstring -> jsstring;
  (** [JSON.stringify({ matchPaths, components, cleanedSSRVisitedPageComponents })] *)
  stringify_inputs :
    list IGatsbyPageMatchPath -> list IGatsbyPageComponent ->
    list IGatsbyPageComponent -> jsstring;
  (** [JSON.stringify(matchPaths, null, 4)] *)
  stringify_pretty : list IGatsbyPageMatchPath -> jsstring;
  joinPath : list jsstring -> jsstring;
  (** [path.relative(getAbsolutePathForVirtualModule(`$virtual`), component)] *)
  relative_to_virtual : jsstring -> jsstring;
  slash : jsstring -> jsstring;
  (** truthiness of [process.env.GATSBY_EXPERIMENTAL_DEV_SSR] *)
  GATSBY_EXPERIMENTAL_DEV_SSR : bool;
  (** [process.env.gatsby_executing_command === `develop`] *)
  executing_develop : bool
}.

(** ** Sorting as the libraries do it *)

(** [Array.prototype.sort] and lodash's [orderBy] are stable: elements the
    comparator does not separate keep their input order.  The stable sort
    is modelled by insertion from the right; an element goes in front of the
    first element that it does not have to follow. *)
Section StableSort.
Context {A : Type} (cmp : A -> A -> Z).

Fixpoint sort_insert (x : A) (l : list A) : list A :=
  match l with
  | [] => [x]
  | y :: t => if cmp x y <=? 0 then x :: l else y :: sort_insert x t
  end.

Definition stable_sort (l : list A) : list A :=
  fold_right sort_insert [] l.

End StableSort.

(** ** getComponents *)

Definition pickComponentFields (page : Page) : IGatsbyPageComponent :=
  {| c_component := component page;
     c_componentChunkName := componentChunkName page |}.

(** lodash's [uniqBy]: an element is kept when no earlier element has its
    key. *)
Fixpoint uniqBy_from {A : Type} (key : A -> jsstring) (seen : list jsstring)
    (l : list A) : list A :=
  match l with
  | [] => []
  | x :: t =>
      if existsb (eqb (key x)) seen then uniqBy_from key seen t
      else x :: uniqBy_from key (key x :: seen) t
  end.

Definition uniqBy {A : Type} (key : A -> jsstring) (l : list A) : list A :=
  uniqBy_from key [] l.

(** lodash's [compareAscending] on two strings. *)
Definition compareAscending (a b : jsstring) : Z :=
  if ltb b a then 1 else if ltb a b then -1 else 0.

(** lodash's [orderBy] with one iteratee and the default ascending order. *)
Definition orderBy {A : Type} (key : A -> jsstring) (l : list A) : list A :=
  stable_sort (fun x y => compareAscending (key x) (key y)) l.

Definition getComponents (pages : list Page) : list IGatsbyPageComponent :=
  orderBy c_componentChunkName
    (uniqBy c_componentChunkName (map pickComponentFields pages)).

(** ** getMatchPaths *)

(** [reporter.panic] ends the computation; nothing is returned. *)
Inductive result (A : Type) :=
| Ok (a : A)
| Panic (message : jsstring).
Arguments Ok {A} a.
Arguments Panic {A} message.

Definition bind {A B : Type} (r : result A) (k : A -> result B) : result B :=
  match r with
  | Ok a => k a
  | Panic m => Panic m
  end.

Notation "x <- r ;; k" := (bind r (fun x => k))
  (at level 61, r at next level, right associativity).

Definition panic_message (page : Page) : jsstring :=
  js "Error: matchPath property is undefined for page " ++ path page
  ++ js ", should be a string".

Definition createMatchPathEntry (page : Page) (index : nat)
    : result IMatchPathEntry :=
  match matchPath page with
  | None => Panic (panic_message page)
  | Some m =>
      Ok {| e_page := page; e_matchPath := m; e_index := index;
            e_score := rankRoute m |}
  end.

(** One [pages.forEach((page, index) => ...)] whose body pushes
    [createMatchPathEntry(page', index)] for the pages its condition picks;
    [select page] is [Some page'] when the condition holds.  [acc] is the
    array pushed to. *)
Fixpoint pushEntries (select : Page -> option Page) (pages : list Page)
    (index : nat) (acc : list IMatchPathEntry)
    : result (list IMatchPathEntry) :=
  match pages with
  | [] => Ok acc
  | page :: rest =>
      match select page with
      | Some page' =>
          entry <- createMatchPathEntry page' index ;;
          pushEntries select rest (S index) (acc ++ [entry])
      | None => pushEntries select rest (S index) acc
      end
  end.

(** The condition of the first loop. *)
Definition hasPattern (h : Host) (page : Page) : bool :=
  if GATSBY_MAJOR_4 h
  then matchPath_truthy page && PageMode_eqb (getPageMode h page) SSG
  else matchPath_truthy page.

Definition selectExplicit (h : Host) (page : Page) : option Page :=
  if hasPattern h page then Some page else None.

(** [!!matchPathPages.find(p => !page.matchPath && match(p.matchPath, page.path))] *)
Definition isInsideMatchPath (h : Host) (matchPathPages : list IMatchPathEntry)
    (page : Page) : bool :=
  existsb
    (fun pageWithMatchPath =>
       negb (matchPath_truthy page)
       && route_match h (e_matchPath pageWithMatchPath) (path page))
    matchPathPages.

Definition selectImplicit (h : Host) (matchPathPages : list IMatchPathEntry)
    (page : Page) : option Page :=
  if isInsideMatchPath h matchPathPages page
  then Some {| path := path page; component := component page;
               componentChunkName := componentChunkName page;
               matchPath := Some (path page) |}
  else None.

(** The first loop: the pages that carry a pattern of their own. *)
Definition explicitEntries (h : Host) (pages : list Page)
    : result (list IMatchPathEntry) :=
  pushEntries (selectExplicit h) pages 0%nat [].

(** The entries before sorting: the explicit ones, then the new matches. *)
Definition collectEntries (h : Host) (pages : list Page)
    : result (list IMatchPathEntry) :=
  matchPathPages <- explicitEntries h pages ;;
  match matchPathPages with
  | [] => Ok matchPathPages
  | _ :: _ =>
      newMatches <-
        pushEntries (selectImplicit h matchPathPages) pages 0%nat [] ;;
      Ok (matchPathPages ++ newMatches)
  end.

Definition compareEntries (h : Host) (a b : IMatchPathEntry) : Z :=
  let order := e_score b - e_score a in
  if negb (order =? 0) then order
  else localeCompare h (e_matchPath a) (e_matchPath b).

Definition projectEntry (e : IMatchPathEntry) : IGatsbyPageMatchPath :=
  {| mp_path := path (e_page e); mp_matchPath := e_matchPath e |}.

Definition getMatchPaths (h : Host) (pages : list Page)
    : result (list IGatsbyPageMatchPath) :=
  matchPathPages <- collectEntries h pages ;;
  Ok (map projectEntry (stable_sort (compareEntries h) matchPathPages)).

(** ** createHash and writeAll *)

Definition createHash (h : Host) (matchPaths : list IGatsbyPageMatchPath)
    (components cleanedSSRVisitedPageComponents : list IGatsbyPageComponent)
    : jsstring :=
  md5_hex h (stringify_inputs h matchPaths components
               cleanedSSRVisitedPageComponents).

(** The parts of [IGatsbyState] read by [writeAll]: [program.directory],
    the values of the [pages] map in its iteration order, and the
    [visitedPages] map from a renderer's name to its set of chunk names. *)
Record IGatsbyState := mkState {
  program_directory : jsstring;
  pages : list Page;
  visitedPages : list (jsstring * list jsstring)
}.

Fixpoint map_get (key : jsstring) (m : list (jsstring * list jsstring))
    : option (list jsstring) :=
  match m with
  | [] => None
  | (k, v) :: rest => if eqb k key then Some v else map_get key rest
  end.

(** [[...(state.visitedPages.get(`server`)?.values() || [])]] *)
Definition ssrVisitedPageComponents (state : IGatsbyState) : list jsstring :=
  match map_get (js "server") (visitedPages state) with
  | Some visited => visited
  | None => []
  end.

Definition cleanedSSRVisitedPageComponents (h : Host) (state : IGatsbyState)
    (components : list IGatsbyPageComponent) : list IGatsbyPageComponent :=
  if GATSBY_EXPERIMENTAL_DEV_SSR h then
    filter
      (fun c =>
         existsb (fun s => eqb s (c_componentChunkName c))
           (ssrVisitedPageComponents state))
      components
  else [].

(** What a run does to the outside, in the order the steps are reached.
    The three [writeAndMove] chains run concurrently; the log lists each
    chain's steps together. *)
Inductive Effect :=
| WriteModule (virtualFilePath data : jsstring)
| DevSSRWillInvalidate
| WriteFile (tmp data : jsstring)
| Move (tmp destination : jsstring).

(** The module's variable [lastHash] and the effects so far. *)
Record World := mkWorld {
  lastHash : option jsstring;
  effects : list Effect
}.

(** The disk and the clock at one run: which [fs.writeFile] and [fs.move]
    calls are fulfilled, and [Date.now()] rendered in the template, by the
    destination it is appended to. *)
Record Disk := mkDisk {
  date_now : jsstring -> jsstring;
  writeFile_ok : jsstring -> bool;
  move_ok : jsstring -> jsstring -> bool
}.

Inductive Outcome :=
| Resolved (changed : bool)
| Rejected
| Panicked (message : jsstring).

Definition quoted (s : jsstring) : jsstring := [DQUOTE] ++ s ++ [DQUOTE].

Definition lazySyncRequires (h : Host) (cleaned : list IGatsbyPageComponent)
    : jsstring :=
  js "exports.ssrComponents = {" ++ [LF]
  ++ join (js "," ++ [LF])
       (map (fun c =>
               js "  " ++ quoted (c_componentChunkName c) ++ js ": require("
               ++ quoted (joinPath h [c_component c]) ++ js ")")
          cleaned)
  ++ [LF] ++ js "  }" ++ [LF; LF].

Definition syncRequires (h : Host) (components : list IGatsbyPageComponent)
    : jsstring :=
  ([LF] ++ js "// prefer default export if available" ++ [LF]
   ++ js "const preferDefault = m => (m && m.default) || m" ++ [LF]
   ++ [LF; LF])
  ++ (js "exports.components = {" ++ [LF]
      ++ join (js "," ++ [LF])
           (map (fun c =>
                   js "  " ++ quoted (c_componentChunkName c)
                   ++ js ": preferDefault(require("
                   ++ quoted (joinPath h [c_component c]) ++ js "))")
              components)
      ++ [LF] ++ js "}" ++ [LF; LF]).

Definition importLine (h : Host) (query chunkSuffix : jsstring)
    (c : IGatsbyPageComponent) : jsstring :=
  let relativeComponentPath := relative_to_virtual h (c_component c) in
  js "  " ++ quoted (c_componentChunkName c) ++ js ": () => import("
  ++ quoted (slash h (js "./" ++ relativeComponentPath) ++ query)
  ++ js " /* webpackChunkName: "
  ++ quoted (c_componentChunkName c ++ chunkSuffix) ++ js " */)".

Definition asyncRequires (h : Host) (components : list IGatsbyPageComponent)
    : jsstring :=
  if executing_develop h then
    js "exports.components = {" ++ [LF]
    ++ join (js "," ++ [LF])
         (map (importLine h (js "?export=default") []) components)
    ++ [LF] ++ js "}" ++ [LF; LF] ++ [LF; LF]
    ++ js "exports.head = {" ++ [LF]
    ++ join (js "," ++ [LF])
         (map (importLine h (js "?export=head") (js "head")) components)
    ++ [LF] ++ js "}" ++ [LF; LF]
  else
    js "exports.components = {" ++ [LF]
    ++ join (js "," ++ [LF]) (map (importLine h [] []) components)
    ++ [LF] ++ js "}" ++ [LF; LF].

(** One [writeAndMove]: the virtual module is written at once; the file is
    written to a temporary name and moved only when that write is
    fulfilled.  The boolean tells whether the returned promise is
    fulfilled. *)
Definition writeAndMove (h : Host) (d : Disk) (directory : jsstring)
    (virtualFilePath file data : jsstring) : list Effect * bool :=
  let destination := joinPath h [directory; js ".cache"; file] in
  let tmp := destination ++ js "." ++ date_now d destination in
  if writeFile_ok d tmp then
    if move_ok d tmp destination
    then ([WriteModule virtualFilePath data; WriteFile tmp data;
           Move tmp destination], true)
    else ([WriteModule virtualFilePath data; WriteFile tmp data], false)
  else ([WriteModule virtualFilePath data], false).

Definition add_effects (w : World) (es : list Effect) : World :=
  {| lastHash := lastHash w; effects := effects w ++ es |}.

Definition set_lastHash (w : World) (hash : jsstring) : World :=
  {| lastHash := Some hash; effects := effects w |}.

Definition option_eqb (a : option jsstring) (b : jsstring) : bool :=
  match a with
  | Some x => eqb b x
  | None => false
  end.

(** The block guarded by [process.env.GATSBY_EXPERIMENTAL_DEV_SSR] after
    the hash is stored: the module of the visited components is written and
    the renderer is told. *)
Definition writeSsrSyncRequires (h : Host)
    (cleaned : list IGatsbyPageComponent) : list Effect :=
  if GATSBY_EXPERIMENTAL_DEV_SSR h then
    [WriteModule (js "$virtual/ssr-sync-requires") (lazySyncRequires h cleaned);
     DevSSRWillInvalidate]
  else [].

(** The three chains handed to [Promise.all]. *)
Definition artifactWrites (h : Host) (d : Disk) (state : IGatsbyState)
    (matchPaths : list IGatsbyPageMatchPath)
    (components : list IGatsbyPageComponent) : list (list Effect * bool) :=
  [writeAndMove h d (program_directory state)
     (js "$virtual/sync-requires.js") (js "sync-requires.js")
     (syncRequires h components);
   writeAndMove h d (program_directory state)
     (js "$virtual/async-requires.js") (js "async-requires.js")
     (asyncRequires h components);
   writeAndMove h d (program_directory state)
     (js "$virtual/match-paths.json") (js "match-paths.json")
     (stringify_pretty h matchPaths)].

(** [await Promise.all(chains)]: every chain runs; the await is fulfilled
    when all of them are. *)
Definition promiseAll (chains : list (list Effect * bool))
    : list Effect * bool :=
  (List.concat (map fst chains), forallb snd chains).

Definition writeAll (h : Host) (d : Disk) (state : IGatsbyState) (w : World)
    : Outcome * World :=
  match getMatchPaths h (pages state) with
  | Panic m => (Panicked m, w)
  | Ok matchPaths =>
      let components := getComponents (pages state) in
      let cleaned := cleanedSSRVisitedPageComponents h state components in
      let newHash := createHash h matchPaths components cleaned in
      if option_eqb (lastHash w) newHash then (Resolved false, w)
      else
        let w := set_lastHash w newHash in
        let w := add_effects w (writeSsrSyncRequires h cleaned) in
        let '(written, fulfilled) :=
          promiseAll (artifactWrites h d state matchPaths components) in
        let w := add_effects w written in
        if fulfilled then (Resolved true, w) else (Rejected, w)
  end.

(** ** The debounced driver *)

Module Debounce.

Record Options := mkOptions {
  wait : Z;
  leading : bool;
  trailing : bool
}.

(** The arguments [debouncedWriteAll] is built with: [500] and
    [{ leading: false }]; [trailing] keeps its default. *)
Definition debouncedWriteAll_options : Options :=
  {| wait := 500; leading := false; trailing := true |}.

(** [Scheduled deadline pending]: the timer is armed for [deadline];
    [pending] tells whether a notification still waits for its pass. *)
Inductive State :=
| Idle
| Scheduled (deadline : Z) (pending : bool).

(** Modelled from the spec: lodash's [debounce] is not among the sources.
    The timer is armed or reset by every notification; a pass starts when
    the timer fires, which it does once no notification arrived for [wait]
    time units.  With [leading] a pass would also start at a notification
    that finds the pipeline idle.  The first component is the list of times
    at which a pass starts. *)
Definition notify (o : Options) (st : State) (t : Z) : list Z * State :=
  match st with
  | Idle =>
      if leading o then ([t], Scheduled (t + wait o) false)
      else ([], Scheduled (t + wait o) true)
  | Scheduled _ _ => ([], Scheduled (t + wait o) true)
  end.

(** Modelled from the spec: the timer fires (see [notify]). *)
Definition expire (o : Options) (st : State) : list Z * State :=
  match st with
  | Idle => ([], Idle)
  | Scheduled deadline pending =>
      (if trailing o && pending then [deadline] else [], Idle)
  end.

(** Modelled from the spec: time advances to [t]; a timer due by then
    fires (see [notify]). *)
Definition advance (o : Options) (st : State) (t : Z) : list Z * State :=
  match st with
  | Scheduled deadline _ =>
      if deadline <=? t then expire o st else ([], st)
  | Idle => ([], Idle)
  end.

(** Modelled from the spec: the passes started while the notifications at
    the given times arrive, one after the other (see [notify]). *)
Fixpoint feed (o : Options) (st : State) (notifications : list Z)
    : list Z * State :=
  match notifications with
  | [] => ([], st)
  | t :: rest =>
      let '(p1, st1) := advance o st t in
      let '(p2, st2) := notify o st1 t in
      let '(p3, st3) := feed o st2 rest in
      (p1 ++ p2 ++ p3, st3)
  end.

(** Modelled from the spec: all passes of a finite stream of
    notifications, the last timer included (see [notify]). *)
Definition passes (o : Options) (notifications : list Z) : list Z :=
  let '(p, st) := feed o Idle notifications in
  p ++ fst (expire o st).

(** A burst: every notification arrives before the window opened by the
    one before it has closed. *)
Fixpoint burst (o : Options) (first : Z) (rest : list Z) : Prop :=
  match rest with
  | [] => True
  | t :: rest' => first <= t < first + wait o /\ burst o t rest'
  end.

End Debounce.

(** ** The router's matcher, and one host to run the module on *)

Module Reference.

(** Modelled from the spec: the router's [match] is not among the sources.
    Pattern and path are compared segment by segment: a trailing [*]
    matches whatever remains, also nothing; a [:name] segment matches one
    non-empty segment; any other segment matches itself; a pattern that
    ends before the path does not match. *)
Fixpoint match_segments (pattern uri : list jsstring) : bool :=
  match pattern with
  | [] => match uri with [] => true | _ :: _ => false end
  | p :: pattern' =>
      if isSplat p && match pattern' with [] => true | _ :: _ => false end
      then true
      else match uri with
           | [] => false
           | u :: uri' =>
               (if isDynamic p then truthy u else eqb p u)
               && match_segments pattern' uri'
           end
  end.

(** Modelled from the spec: see [match_segments]. *)
Definition spec_match (pattern uri : jsstring) : bool :=
  match_segments (segmentize pattern) (segmentize uri).

(** A comparison of strings by code units, a stand-in for
    [localeCompare]. *)
Definition unitCompare (a b : jsstring) : Z :=
  if ltb a b then -1 else if ltb b a then 1 else 0.

Definition render_component (c : IGatsbyPageComponent) : jsstring :=
  quoted (c_component c) ++ js ":" ++ quoted (c_componentChunkName c).

Definition render_matchPath (m : IGatsbyPageMatchPath) : jsstring :=
  quoted (mp_path m) ++ js ":" ++ quoted (mp_matchPath m).

Definition render_inputs (matchPaths : list IGatsbyPageMatchPath)
    (components cleaned : list IGatsbyPageComponent) : jsstring :=
  js "[" ++ join (js ",") (map render_matchPath matchPaths) ++ js "]["
  ++ join (js ",") (map render_component components) ++ js "]["
  ++ join (js ",") (map render_component cleaned) ++ js "]".

(** A host for running examples: the matcher of the specification, the
    digest replaced by the identity. *)
Definition host (major4 devSSR : bool) : Host :=
  {| GATSBY_MAJOR_4 := major4;
     getPageMode := fun page =>
       if eqb (component page) (js "ssr.js") then SSR else SSG;
     route_match := spec_match;
     localeCompare := unitCompare;
     md5_hex := fun s => s;
     stringify_inputs := render_inputs;
     stringify_pretty := fun m => join (js ",") (map render_matchPath m);
     joinPath := join (js "/");
     relative_to_virtual := fun s => s;
     slash := fun s => s;
     GATSBY_EXPERIMENTAL_DEV_SSR := devSSR;
     executing_develop := false |}.

(** A disk on which every write and every move is fulfilled. *)
Definition goodDisk : Disk :=
  {| date_now := fun _ => js "1700000000000";
     writeFile_ok := fun _ => true;
     move_ok := fun _ _ => true |}.

(** A disk on which no move into place is fulfilled. *)
Definition fullDisk : Disk :=
  {| date_now := fun _ => js "1700000000000";
     writeFile_ok := fun _ => true;
     move_ok := fun _ _ => false |}.

Definition appWildcard : Page :=
  {| path := js "/app/*"; component := js "app.js";
     componentChunkName := js "component---app";
     matchPath := Some (js "/app/*") |}.

Definition appSettings : Page :=
  {| path := js "/app/settings"; component := js "settings.js";
     componentChunkName := js "component---settings";
     matchPath := None |}.

Definition blogA : Page :=
  {| path := js "/a"; component := js "blog.js";
     componentChunkName := js "component---blog";
     matchPath := Some (js "/x/*") |}.

Definition blogB : Page :=
  {| path := js "/b"; component := js "blog.js";
     componentChunkName := js "component---blog";
     matchPath := Some (js "/x/*") |}.

Definition ssrPage : Page :=
  {| path := js "/shop/*"; component := js "ssr.js";
     componentChunkName := js "component---ssr";
     matchPath := Some (js "/shop/*") |}.

Definition emptyWorld : World := {| lastHash := None; effects := [] |}.

Definition appState : IGatsbyState :=
  {| program_directory := js "/site";
     pages := [appWildcard; appSettings];
     visitedPages := [(js "server", [js "component---app"])] |}.


End Reference.

(** ** The rest of the module: reset, the debounced pass, the listener *)

Definition resetLastHash (w : World) : World :=
  {| lastHash := None; effects := effects w |}.

(** The comparator of [getMatchPaths] read on the returned records: an
    entry's score is [rankRoute] of its [matchPath]. *)
Definition compareMatchPaths (h : Host) (a b : IGatsbyPageMatchPath) : Z :=
  let order := rankRoute (mp_matchPath b) - rankRoute (mp_matchPath a) in
  if negb (order =? 0) then order
  else localeCompare h (mp_matchPath a) (mp_matchPath b).

Module Listener.

(** What the reporter sees of the activity timer of one pass. *)
Inductive ActivityEvent :=
| ActivityStart
| ActivityEnd.

(** The function handed to [_.debounce]: the timer is started, [writeAll]
    is awaited, the timer is ended.  Nothing catches a rejection, so the
    last step is reached only when [writeAll] is fulfilled. *)
Definition debouncedPass (h : Host) (d : Disk) (state : IGatsbyState)
    (w : World) : list ActivityEvent * (Outcome * World) :=
  let r := writeAll h d state w in
  match fst r with
  | Resolved _ => ([ActivityStart; ActivityEnd], r)
  | Rejected | Panicked _ => ([ActivityStart], r)
  end.

(** The steps of a handler registered by [startListener]. *)
Inductive HandlerStep :=
| CallDevSSRWillInvalidate
| PendingActivity (id : jsstring)
| CallDebouncedWriteAll.

Definition Handler := list HandlerStep.

(** The module's [listenerStarted] and the emitter's handlers, in the
    order they were registered. *)
Record ListenerState := mkListenerState {
  listenerStarted : bool;
  subscriptions : list (jsstring * Handler)
}.

(** [emitter.on(name, handler)] *)
Definition on (name : jsstring) (handler : Handler) (s : ListenerState)
    : ListenerState :=
  {| listenerStarted := listenerStarted s;
     subscriptions := subscriptions s ++ [(name, handler)] |}.

Definition pageHandler : Handler :=
  [PendingActivity (js "requires-writer"); CallDebouncedWriteAll].

Definition serverVisitedHandler : Handler :=
  [CallDevSSRWillInvalidate; PendingActivity (js "requires-writer");
   CallDebouncedWriteAll].

Definition startListener (h : Host) (s : ListenerState) : ListenerState :=
  if listenerStarted s then s
  else
    let s := {| listenerStarted := true; subscriptions := subscriptions s |} in
    let s :=
      if GATSBY_EXPERIMENTAL_DEV_SSR h
      then on (js "CREATE_SERVER_VISITED_PAGE") serverVisitedHandler s
      else s in
    let s := on (js "CREATE_PAGE") pageHandler s in
    let s := on (js "CREATE_PAGE_END") pageHandler s in
    let s := on (js "DELETE_PAGE") pageHandler s in
    on (js "DELETE_PAGE_BY_PATH") pageHandler s.

(** The handlers an event of the given name reaches. *)
Definition handlersOf (name : jsstring) (s : ListenerState) : list Handler :=
  map snd (filter (fun sub => eqb (fst sub) name) (subscriptions s)).

(** The events every start subscribes to. *)
Definition pageEvents : list jsstring :=
  [js "CREATE_PAGE"; js "CREATE_PAGE_END"; js "DELETE_PAGE";
   js "DELETE_PAGE_BY_PATH"].

Definition fresh : ListenerState :=
  {| listenerStarted := false; subscriptions := [] |}.

End Listener.

(** ** The match paths as one expression *)

Module MatchPathSpec.

(** The record of a page that carries a pattern of its own. *)
Definition explicitOf (h : Host) (page : Page) : list IGatsbyPageMatchPath :=
  if hasPattern h page then
    match matchPath page with
    | Some m => [mkMatchPath (path page) m]
    | None => []
    end
  else [].

Definition patternsOf (h : Host) (pages : list Page) : list jsstring :=
  map mp_matchPath (flat_map (explicitOf h) pages).

(** The record of a page without a pattern whose path one of the patterns
    matches. *)
Definition implicitOf (h : Host) (patterns : list jsstring) (page : Page)
    : list IGatsbyPageMatchPath :=
  if negb (matchPath_truthy page)
     && existsb (fun m => route_match h m (path page)) patterns
  then [mkMatchPath (path page) (path page)]
  else [].

(** The records before sorting: the explicit ones in page order, then the
    implicit ones in page order. *)
Definition unsorted (h : Host) (pages : list Page)
    : list IGatsbyPageMatchPath :=
  flat_map (explicitOf h) pages
  ++ flat_map (implicitOf h (patternsOf h pages)) pages.

End MatchPathSpec.

(** * Proofs *)

Import Reference.

(** ** Strings *)

Lemma eqb_eq (a b : jsstring) : eqb a b = true <-> a = b.
Proof.
  unfold eqb. destruct (list_eq_dec N.eq_dec a b); split; congruence.
Qed.

Lemma eqb_refl (a : jsstring) : eqb a a = true.
Proof. now apply eqb_eq. Qed.

Lemma eqb_neq (a b : jsstring) : eqb a b = false <-> a <> b.
Proof.
  unfold eqb. destruct (list_eq_dec N.eq_dec a b); split; congruence.
Qed.

Lemma eqb_sym (a b : jsstring) : eqb a b = eqb b a.
Proof.
  destruct (eqb a b) eqn:E.
  - apply eqb_eq in E. subst. now rewrite eqb_refl.
  - apply eqb_neq in E. symmetry. apply eqb_neq. congruence.
Qed.

Lemma ltb_irrefl (a : jsstring) : ltb a a = false.
Proof.
  induction a as [|x a IH]; simpl; [reflexivity|].
  now rewrite N.ltb_irrefl.
Qed.

Lemma ltb_trans (a b c : jsstring) :
  ltb a b = true -> ltb b c = true -> ltb a c = true.
Proof.
  revert b c. induction a as [|x a IH]; intros [|y b] [|z c]; simpl;
    try congruence.
  destruct (N.ltb_spec x y), (N.ltb_spec y x), (N.ltb_spec y z),
    (N.ltb_spec z y), (N.ltb_spec x z), (N.ltb_spec z x);
    try congruence; try lia.
  apply IH.
Qed.

Lemma ltb_asym (a b : jsstring) : ltb a b = true -> ltb b a = false.
Proof.
  intros H. destruct (ltb b a) eqn:E; [|reflexivity].
  pose proof (ltb_trans _ _ _ H E) as C. now rewrite ltb_irrefl in C.
Qed.

Lemma ltb_trichotomy (a b : jsstring) :
  ltb a b = false -> ltb b a = false -> a = b.
Proof.
  revert b. induction a as [|x a IH]; intros [|y b]; simpl; try congruence.
  destruct (N.ltb_spec x y), (N.ltb_spec y x); try congruence; try lia.
  intros H1 H2. f_equal; [lia | now apply IH].
Qed.

(** [a <= b] is transitive. *)
Lemma geb_trans (a b c : jsstring) :
  ltb b a = false -> ltb c b = false -> ltb c a = false.
Proof.
  intros H1 H2. destruct (ltb c a) eqn:E; [|reflexivity].
  destruct (ltb a b) eqn:Eab.
  - pose proof (ltb_trans _ _ _ E Eab). congruence.
  - pose proof (ltb_trichotomy _ _ Eab H1). subst. congruence.
Qed.

(** ** Segments *)

Lemma forallb_rev {A : Type} (f : A -> bool) (l : list A) :
  forallb f (rev l) = forallb f l.
Proof.
  induction l as [|x l IH]; simpl; [reflexivity|].
  rewrite forallb_app, IH. simpl. rewrite andb_true_r. apply andb_comm.
Qed.

Lemma drop_slashes_all (s : jsstring) :
  forallb is_slash s = true -> drop_slashes s = [].
Proof.
  induction s as [|c s IH]; simpl; [reflexivity|].
  destruct (is_slash c); simpl; [exact IH | discriminate].
Qed.

Lemma drop_slashes_app_all (a b : jsstring) :
  forallb is_slash a = true -> drop_slashes (a ++ b) = drop_slashes b.
Proof.
  induction a as [|c a IH]; simpl; [reflexivity|].
  destruct (is_slash c); simpl; [exact IH | discriminate].
Qed.

Lemma drop_slashes_app_some (a b : jsstring) :
  forallb is_slash a = false -> drop_slashes (a ++ b) = drop_slashes a ++ b.
Proof.
  induction a as [|c a IH]; simpl; [discriminate|].
  destruct (is_slash c); simpl; [exact IH | reflexivity].
Qed.

(** Scanning past index 0 removes the trailing run of slashes. *)
Lemma replace_scan_strips_tail (s : jsstring) :
  replace_scan s = rev (drop_slashes (rev s)).
Proof.
  induction s as [|c s IH]; [reflexivity|].
  cbn [replace_scan rev].
  destruct (forallb is_slash s) eqn:All.
  - rewrite drop_slashes_app_all by now rewrite forallb_rev.
    rewrite IH, drop_slashes_all by now rewrite forallb_rev.
    simpl. destruct (is_slash c); reflexivity.
  - rewrite andb_false_r.
    rewrite drop_slashes_app_some by now rewrite forallb_rev.
    rewrite rev_app_distr, IH. reflexivity.
Qed.

Lemma replace_slashes_strips (uri : jsstring) :
  replace_slashes uri = rev (drop_slashes (rev (drop_slashes uri))).
Proof.
  destruct uri as [|c t]; [reflexivity|].
  unfold replace_slashes. cbn [drop_slashes].
  destruct (is_slash c); apply replace_scan_strips_tail.
Qed.

Lemma segmentize_segments (uri : jsstring) :
  segmentize uri = ScoreSpec.segments uri.
Proof.
  unfold segmentize, ScoreSpec.segments. now rewrite replace_slashes_strips.
Qed.

Lemma rankStep_points (score : Z) (segment : jsstring) :
  rankStep score segment
  = score + ScoreSpec.points ScoreSpec.colon_then_dot segment.
Proof.
  unfold rankStep, ScoreSpec.points, isRootSegment, isDynamic, isSplat,
    paramRe_test, ScoreSpec.colon_then_dot,
    SEGMENT_POINTS, ROOT_POINTS, DYNAMIC_POINTS, SPLAT_PENALTY, STATIC_POINTS.
  cbv zeta.
  destruct (eqb segment []); [lia|].
  match goal with
  | |- context [if ?b then _ + 2 else _] => destruct b
  end; [lia|].
  destruct (eqb segment [STAR]); lia.
Qed.

Lemma fold_rankStep_sum (segments : list jsstring) (score : Z) :
  fold_left rankStep segments score
  = score
    + fold_right Z.add 0
        (map (ScoreSpec.points ScoreSpec.colon_then_dot) segments).
Proof.
  revert score. induction segments as [|seg rest IH]; intros score; simpl.
  - lia.
  - rewrite IH, rankStep_points. lia.
Qed.

(** C2, as amended: for every path, [rankRoute] is the sum over the
    segments (leading and trailing runs of slashes stripped, split on
    slashes, the empty path giving the one empty segment) of 4 per segment,
    plus 1 for an empty segment, else plus 2 for a segment that starts with
    a colon followed by a character that is not a line terminator, else
    minus 5 for the segment [*], else plus 3; the root path scores 5, and
    [a/*] scores below [a/:id], which scores below [a/b]. *)
Theorem rankRoute_sum_of_segment_points :
  (forall p : jsstring,
     rankRoute p = ScoreSpec.total ScoreSpec.colon_then_dot p)
  /\ ScoreSpec.segments [] = [[]]
  /\ ScoreSpec.segments (js "/a/b/") = ScoreSpec.segments (js "a/b")
  /\ rankRoute (js "/") = 5
  /\ rankRoute (js "a/*") < rankRoute (js "a/:id")
  /\ rankRoute (js "a/:id") < rankRoute (js "a/b").
Proof.
  split; [|repeat split; reflexivity].
  intros p. unfold rankRoute, ScoreSpec.total.
  rewrite fold_rankStep_sum, segmentize_segments. lia.
Qed.

(** C2, as stated, fails on a segment made of a colon and a line feed: the
    claim's rule gives 4 + 2, the code gives 4 + 3, because the regular
    expression's [.] does not match a line terminator. *)
Lemma rankRoute_colon_linefeed :
  rankRoute [COLON; LF] = 7
  /\ ScoreSpec.total ScoreSpec.colon_then_any [COLON; LF] = 6
  /\ rankRoute [COLON; LF]
     <> ScoreSpec.total ScoreSpec.colon_then_any [COLON; LF].
Proof. repeat split; try reflexivity. vm_compute. discriminate. Qed.

(** ** The stable sort *)

Section StableSortFacts.
Context {A : Type} (cmp : A -> A -> Z).

Lemma sort_insert_perm (x : A) (l : list A) :
  Permutation (sort_insert cmp x l) (x :: l).
Proof.
  induction l as [|y t IH]; simpl; [apply Permutation_refl|].
  destruct (cmp x y <=? 0); [apply Permutation_refl|].
  eapply perm_trans; [apply perm_skip, IH | apply perm_swap].
Qed.

Lemma stable_sort_perm (l : list A) : Permutation (stable_sort cmp l) l.
Proof.
  induction l as [|x l IH]; simpl; [constructor|].
  eapply perm_trans; [apply sort_insert_perm | now apply perm_skip].
Qed.

Lemma stable_sort_In (x : A) (l : list A) :
  In x (stable_sort cmp l) <-> In x l.
Proof.
  split; apply Permutation_in;
    [apply stable_sort_perm | apply Permutation_sym, stable_sort_perm].
Qed.

(** Sortedness for any relation [R] that the comparator respects: an
    element that is put in front of [y] is [R]-before [y], and one that is
    sent past [y] is [R]-after it. *)
Section Sorted.
Variable R : A -> A -> Prop.
Hypothesis R_trans : forall x y z, R x y -> R y z -> R x z.
Hypothesis R_front : forall x y, cmp x y <= 0 -> R x y.
Hypothesis R_past : forall x y, cmp x y > 0 -> R y x.

Lemma sort_insert_sorted (x : A) (l : list A) :
  StronglySorted R l -> StronglySorted R (sort_insert cmp x l).
Proof.
  induction l as [|y t IH]; intros S; simpl.
  - constructor; constructor.
  - inversion S as [|y' t' St Fy]; subst.
    destruct (Z.leb_spec (cmp x y) 0) as [Le|Gt].
    + constructor; [exact S|].
      constructor; [now apply R_front|].
      eapply Forall_impl; [|exact Fy].
      intros z Hz. eapply R_trans; [apply R_front, Le | exact Hz].
    + constructor; [now apply IH|].
      apply Forall_forall. intros z Hz.
      apply (Permutation_in _ (sort_insert_perm x t)) in Hz.
      destruct Hz as [<-|Hz].
      * apply R_past. lia.
      * rewrite Forall_forall in Fy. now apply Fy.
Qed.

Lemma stable_sort_sorted (l : list A) : StronglySorted R (stable_sort cmp l).
Proof.
  induction l as [|x l IH]; simpl; [constructor|].
  now apply sort_insert_sorted.
Qed.

End Sorted.

End StableSortFacts.

Lemma StronglySorted_later {A : Type} (R : A -> A -> Prop)
    (a c : list A) (y x : A) :
  StronglySorted R (a ++ y :: c) -> In x c -> R y x.
Proof.
  induction a as [|z a IH]; simpl; intros S Hx.
  - inversion S as [|? ? _ F]; subst. rewrite Forall_forall in F.
    now apply F.
  - inversion S; subst. now apply IH.
Qed.

Lemma StronglySorted_before {A : Type} (R : A -> A -> Prop) (l : list A)
    (x y : A) :
  StronglySorted R l -> In x l -> In y l -> ~ R y x -> x <> y ->
  exists l1 l2 l3, l = l1 ++ x :: l2 ++ y :: l3.
Proof.
  intros S Hx Hy Not Neq.
  destruct (in_split _ _ Hx) as (l1 & r & ->).
  apply in_app_or in Hy. destruct Hy as [Hy|[Hy|Hy]].
  - exfalso. apply Not.
    destruct (in_split _ _ Hy) as (a & b & ->).
    rewrite <- app_assoc in S. simpl in S.
    apply (StronglySorted_later R a (b ++ x :: r)); [exact S|].
    apply in_or_app. right. now left.
  - congruence.
  - destruct (in_split _ _ Hy) as (l2 & l3 & ->).
    now exists l1, l2, l3.
Qed.

(** ** getComponents *)

Lemma uniqBy_from_In {A : Type} (key : A -> jsstring) (l : list A) :
  forall (seen : list jsstring) (x : A),
    In x (uniqBy_from key seen l) <->
    ~ In (key x) seen
    /\ exists before after,
         l = before ++ x :: after
         /\ forall y, In y before -> key y <> key x.
Proof.
  induction l as [|a l IH]; intros seen x; simpl.
  - split; [tauto|]. intros (_ & [|? ?] & ? & E & _); discriminate.
  - destruct (existsb (eqb (key a)) seen) eqn:Seen.
    + apply existsb_exists in Seen. destruct Seen as (k & Hk & Ek).
      apply eqb_eq in Ek. subst k.
      rewrite IH. split.
      * intros (Ns & before & after & -> & Hb). split; [exact Ns|].
        exists (a :: before), after. split; [reflexivity|].
        intros y [<-|Hy]; [congruence | now apply Hb].
      * intros (Ns & before & after & E & Hb). split; [exact Ns|].
        destruct before as [|b before]; simpl in E; inversion E; subst.
        -- contradiction.
        -- exists before, after. split; [reflexivity|].
           intros y Hy. apply Hb. now right.
    + assert (Nseen : ~ In (key a) seen).
      { intros Hin. apply Bool.not_true_iff_false in Seen. apply Seen.
        apply existsb_exists. exists (key a). split; [exact Hin|].
        apply eqb_refl. }
      simpl. rewrite IH. split.
      * intros [<-|(Ns & before & after & -> & Hb)].
        -- split; [exact Nseen|]. exists [], l. split; [reflexivity|].
           intros y [].
        -- split; [intros Hin; apply Ns; now right|].
           exists (a :: before), after. split; [reflexivity|].
           intros y [<-|Hy]; [|now apply Hb].
           intros E. apply Ns. left. exact E.
      * intros (Ns & before & after & E & Hb).
        destruct before as [|b before]; simpl in E; inversion E; subst.
        -- now left.
        -- right. split.
           ++ intros [Ek|Hin]; [|contradiction].
              apply (Hb b); [now left | exact Ek].
           ++ exists before, after. split; [reflexivity|].
              intros y Hy. apply Hb. now right.
Qed.

Lemma uniqBy_from_NoDup {A : Type} (key : A -> jsstring) (l : list A) :
  forall seen : list jsstring,
    NoDup (map key (uniqBy_from key seen l)).
Proof.
  induction l as [|a l IH]; intros seen; simpl; [constructor|].
  destruct (existsb (eqb (key a)) seen); [apply IH|].
  simpl. constructor; [|apply IH].
  rewrite in_map_iff. intros (y & Ey & Hy).
  apply uniqBy_from_In in Hy. destruct Hy as (Ns & _).
  apply Ns. left. now symmetry.
Qed.

Lemma compareAscending_le (a b : jsstring) :
  compareAscending a b <= 0 <-> ltb b a = false.
Proof.
  unfold compareAscending.
  destruct (ltb b a); [split; [lia | discriminate]|].
  destruct (ltb a b); split; intros; (lia || reflexivity).
Qed.

Lemma orderBy_sorted {A : Type} (key : A -> jsstring) (l : list A) :
  StronglySorted (fun x y => ltb (key y) (key x) = false) (orderBy key l).
Proof.
  unfold orderBy. apply stable_sort_sorted.
  - intros x y z Hxy Hyz. eapply geb_trans; eassumption.
  - intros x y H. now apply compareAscending_le.
  - intros x y H.
    destruct (ltb (key x) (key y)) eqn:E; [|reflexivity].
    exfalso. unfold compareAscending in H.
    rewrite (ltb_asym _ _ E), E in H. lia.
Qed.

Lemma StronglySorted_strict {A : Type} (key : A -> jsstring) (l : list A) :
  StronglySorted (fun x y => ltb (key y) (key x) = false) l ->
  NoDup (map key l) ->
  StronglySorted (fun x y => ltb (key x) (key y) = true) l.
Proof.
  induction l as [|x l IH]; intros S N; [constructor|].
  inversion S as [|? ? Sl F]; subst. simpl in N.
  inversion N as [|? ? Nx Nl]; subst.
  constructor; [now apply IH|].
  rewrite Forall_forall in *. intros y Hy.
  destruct (ltb (key x) (key y)) eqn:E; [reflexivity|].
  exfalso. apply Nx. apply in_map_iff. exists y. split; [|exact Hy].
  apply ltb_trichotomy; [now apply F | exact E].
Qed.

Lemma map_split_first {A B : Type} (f : A -> B) (l : list A)
    (before after : list B) (y : B) :
  map f l = before ++ y :: after ->
  exists l1 x l2,
    l = l1 ++ x :: l2 /\ map f l1 = before /\ f x = y /\ map f l2 = after.
Proof.
  revert before. induction l as [|a l IH]; intros before E.
  - destruct before; discriminate.
  - destruct before as [|b before]; simpl in E; inversion E; subst.
    + now exists [], a, l.
    + destruct (IH _ H1) as (l1 & x & l2 & -> & <- & <- & <-).
      now exists (a :: l1), x, l2.
Qed.

(** C5: the catalogue is strictly ascending by chunk name (so every chunk
    name occurs once, whatever the order of the pages); its records are
    exactly the projections of the pages that are the first with their
    chunk name; of two pages sharing [c1] the earlier one's component is
    kept; the function only reads its argument. *)
Theorem getComponents_first_occurrence_sorted :
  forall pages : list Page,
    StronglySorted
      (fun a b => ltb (c_componentChunkName a) (c_componentChunkName b) = true)
      (getComponents pages)
    /\ NoDup (map c_componentChunkName (getComponents pages))
    /\ (forall c : IGatsbyPageComponent,
          In c (getComponents pages) <->
          exists before page after,
            pages = before ++ page :: after
            /\ c = pickComponentFields page
            /\ forall q, In q before ->
                 componentChunkName q <> componentChunkName page)
    /\ (forall a1 a2 b : jsstring,
          getComponents
            [mkPage (js "/2") b (js "c2") None;
             mkPage (js "/1") a1 (js "c1") None;
             mkPage (js "/3") a2 (js "c1") None]
          = [mkComponent a1 (js "c1"); mkComponent b (js "c2")]).
Proof.
  intros pages.
  assert (N : NoDup (map c_componentChunkName (getComponents pages))).
  { unfold getComponents, orderBy.
    eapply Permutation_NoDup.
    - apply Permutation_map, Permutation_sym, stable_sort_perm.
    - apply uniqBy_from_NoDup. }
  split; [|split; [exact N|split]].
  - apply StronglySorted_strict; [apply orderBy_sorted | exact N].
  - intros c. unfold getComponents, orderBy.
    rewrite stable_sort_In. unfold uniqBy. rewrite uniqBy_from_In.
    split.
    + intros (_ & before & after & E & Hb).
      apply map_split_first in E.
      destruct E as (l1 & page & l2 & -> & <- & <- & _).
      exists l1, page, l2. repeat split.
      intros q Hq. apply (Hb (pickComponentFields q)).
      now apply in_map.
    + intros (before & page & after & -> & -> & Hb).
      split; [intros []|].
      exists (map pickComponentFields before), (map pickComponentFields after).
      split; [now rewrite map_app|].
      intros y Hy. apply in_map_iff in Hy. destruct Hy as (q & <- & Hq).
      now apply Hb.
  - intros a1 a2 b. reflexivity.
Qed.

(** ** getMatchPaths *)

(** A loop whose picked pages all carry a [matchPath] pushes one entry for
    each of them and does not panic. *)
Lemma pushEntries_ok (select : Page -> option Page) (pages : list Page) :
  (forall p p', In p pages -> select p = Some p' -> matchPath p' <> None) ->
  forall (index : nat) (acc : list IMatchPathEntry),
  exists news,
    pushEntries select pages index acc = Ok (acc ++ news)
    /\ forall e,
         In e news <->
         exists k p p' m,
           nth_error pages k = Some p /\ select p = Some p'
           /\ matchPath p' = Some m
           /\ e = mkEntry p' m (index + k) (rankRoute m).
Proof.
  induction pages as [|page rest IH]; intros Hsel index acc.
  - exists []. split; [simpl; now rewrite app_nil_r|].
    intros e. split; [intros []|].
    intros ([|k] & p & p' & m & Hk & _); discriminate.
  - assert (Hrest : forall p p', In p rest -> select p = Some p' ->
                                 matchPath p' <> None).
    { intros p p' Hp. apply Hsel. now right. }
    simpl. destruct (select page) as [page'|] eqn:Sel.
    + unfold createMatchPathEntry.
      destruct (matchPath page') as [m|] eqn:Mp;
        [|exfalso; now apply (Hsel page page'); [left| |]].
      simpl.
      destruct (IH Hrest (S index) (acc ++ [mkEntry page' m index (rankRoute m)]))
        as (news & E & Char).
      exists (mkEntry page' m index (rankRoute m) :: news).
      split; [rewrite E, <- app_assoc; reflexivity|].
      intros e. simpl. rewrite Char. split.
      * intros [<-|(k & p & p' & m' & Hk & Hs & Hm & ->)].
        -- exists 0%nat, page, page', m. rewrite Nat.add_0_r. now repeat split.
        -- exists (S k), p, p', m'. rewrite Nat.add_succ_r. now repeat split.
      * intros ([|k] & p & p' & m' & Hk & Hs & Hm & ->); simpl in Hk.
        -- left. inversion Hk; subst. rewrite Sel in Hs. inversion Hs; subst.
           rewrite Mp in Hm. inversion Hm; subst. now rewrite Nat.add_0_r.
        -- right. exists k, p, p', m'. rewrite Nat.add_succ_r. now repeat split.
    + destruct (IH Hrest (S index) acc) as (news & E & Char).
      exists news. split; [exact E|].
      intros e. rewrite Char. split.
      * intros (k & p & p' & m' & Hk & Hs & Hm & ->).
        exists (S k), p, p', m'. rewrite Nat.add_succ_r. now repeat split.
      * intros ([|k] & p & p' & m' & Hk & Hs & Hm & ->); simpl in Hk.
        -- inversion Hk; subst. congruence.
        -- exists k, p, p', m'. rewrite Nat.add_succ_r. now repeat split.
Qed.

Lemma hasPattern_truthy (h : Host) (page : Page) :
  hasPattern h page = true -> matchPath_truthy page = true.
Proof.
  unfold hasPattern. destruct (GATSBY_MAJOR_4 h); [|tauto].
  intros H. now apply andb_true_iff in H.
Qed.

Lemma matchPath_truthy_Some (page : Page) :
  matchPath_truthy page = true -> exists m, matchPath page = Some m.
Proof.
  unfold matchPath_truthy. destruct (matchPath page) as [m|]; [|discriminate].
  now exists m.
Qed.

(** The page a new match is built from: the page spread with
    [matchPath: page.path]. *)
Lemma selectImplicit_Some (h : Host) (entries : list IMatchPathEntry)
    (p p' : Page) :
  selectImplicit h entries p = Some p' ->
  isInsideMatchPath h entries p = true
  /\ path p' = path p /\ matchPath p' = Some (path p).
Proof.
  unfold selectImplicit. destruct (isInsideMatchPath h entries p);
    [|discriminate].
  intros E. inversion E; subst. now repeat split.
Qed.

(** The entries before sorting: the explicit ones, then the new matches. *)
Lemma collectEntries_ok (h : Host) (pages : list Page) :
  exists explicit implicit,
    explicitEntries h pages = Ok explicit
    /\ collectEntries h pages = Ok (explicit ++ implicit)
    /\ (forall e,
          In e explicit <->
          exists k p m,
            nth_error pages k = Some p /\ hasPattern h p = true
            /\ matchPath p = Some m /\ e = mkEntry p m k (rankRoute m))
    /\ (forall e,
          In e implicit <->
          exists k p p',
            nth_error pages k = Some p
            /\ selectImplicit h explicit p = Some p'
            /\ e = mkEntry p' (path p) k (rankRoute (path p))).
Proof.
  unfold collectEntries, explicitEntries.
  destruct (pushEntries_ok (selectExplicit h) pages) with (index := 0%nat)
    (acc := @nil IMatchPathEntry) as (explicit & E & Char).
  { intros p p' _. unfold selectExplicit.
    destruct (hasPattern h p) eqn:Hp; [|discriminate].
    intros Ep. inversion Ep; subst.
    destruct (matchPath_truthy_Some _ (hasPattern_truthy _ _ Hp)) as (m & ->).
    discriminate. }
  simpl in E. rewrite E. simpl.
  assert (CharE : forall e,
            In e explicit <->
            exists k p m,
              nth_error pages k = Some p /\ hasPattern h p = true
              /\ matchPath p = Some m /\ e = mkEntry p m k (rankRoute m)).
  { intros e. rewrite Char. split.
    - intros (k & p & p' & m & Hk & Hs & Hm & ->).
      unfold selectExplicit in Hs.
      destruct (hasPattern h p) eqn:Hp; [|discriminate].
      inversion Hs; subst. now exists k, p', m.
    - intros (k & p & m & Hk & Hp & Hm & ->).
      exists k, p, p, m. unfold selectExplicit. rewrite Hp. now repeat split. }
  destruct explicit as [|e0 explicit'].
  - exists [], []. split; [reflexivity|].
    split; [reflexivity|]. split; [exact CharE|].
    intros e. split; [intros []|].
    intros (k & p & p' & _ & Hs & _). now apply selectImplicit_Some in Hs.
  - destruct (pushEntries_ok (selectImplicit h (e0 :: explicit')) pages)
      with (index := 0%nat) (acc := @nil IMatchPathEntry)
      as (implicit & I & CharI).
    { intros p p' _ Hs. apply selectImplicit_Some in Hs.
      destruct Hs as (_ & _ & ->). discriminate. }
    cbn [app] in I. rewrite I. cbn [bind].
    exists (e0 :: explicit'), implicit.
    split; [reflexivity|]. split; [reflexivity|]. split; [exact CharE|].
    intros e. rewrite CharI. split.
    + intros (k & p & p' & m & Hk & Hs & Hm & ->).
      exists k, p, p'. destruct (selectImplicit_Some _ _ _ _ Hs) as (_ & _ & Mp).
      rewrite Mp in Hm. inversion Hm; subst. now repeat split.
    + intros (k & p & p' & Hk & Hs & ->).
      exists k, p, p', (path p).
      destruct (selectImplicit_Some _ _ _ _ Hs) as (_ & _ & Mp).
      now repeat split.
Qed.

(** With pages as typed, [getMatchPaths] always returns. *)
Lemma getMatchPaths_total (h : Host) (pages : list Page) :
  exists entries,
    collectEntries h pages = Ok entries
    /\ getMatchPaths h pages
       = Ok (map projectEntry (stable_sort (compareEntries h) entries)).
Proof.
  destruct (collectEntries_ok h pages) as (ex & im & _ & E & _).
  exists (ex ++ im). split; [exact E|].
  unfold getMatchPaths. now rewrite E.
Qed.

(** Whatever [localeCompare] answers, the sorted entries descend by
    score. *)
Lemma sorted_by_score (h : Host) (entries : list IMatchPathEntry) :
  StronglySorted (fun a b => e_score b <= e_score a)
    (stable_sort (compareEntries h) entries).
Proof.
  apply stable_sort_sorted.
  - intros x y z Hxy Hyz. lia.
  - intros x y. unfold compareEntries. cbv zeta.
    destruct (Z.eqb_spec (e_score y - e_score x) 0); simpl; lia.
  - intros x y. unfold compareEntries. cbv zeta.
    destruct (Z.eqb_spec (e_score y - e_score x) 0); simpl; lia.
Qed.

(** Where [localeCompare] is a total preorder, the sorted entries are
    ordered by the comparator: by descending score, and among equal scores
    by [localeCompare] of the [matchPath]. *)
Lemma sorted_by_comparator (h : Host) (entries : list IMatchPathEntry) :
  (forall a b, localeCompare h a b > 0 -> localeCompare h b a <= 0) ->
  (forall a b c, localeCompare h a b <= 0 -> localeCompare h b c <= 0 ->
                 localeCompare h a c <= 0) ->
  StronglySorted
    (fun a b =>
       e_score b < e_score a
       \/ (e_score b = e_score a
           /\ localeCompare h (e_matchPath a) (e_matchPath b) <= 0))
    (stable_sort (compareEntries h) entries).
Proof.
  intros Total Trans. apply stable_sort_sorted.
  - intros x y z [Hxy|(Exy & Lxy)] [Hyz|(Eyz & Lyz)]; try (left; lia).
    right. split; [lia|]. eapply Trans; eassumption.
  - intros x y. unfold compareEntries. cbv zeta.
    destruct (Z.eqb_spec (e_score y - e_score x) 0); simpl; intros H.
    + right. split; [lia | exact H].
    + left. lia.
  - intros x y. unfold compareEntries. cbv zeta.
    destruct (Z.eqb_spec (e_score y - e_score x) 0); simpl; intros H.
    + right. split; [lia | now apply Total].
    + left. lia.
Qed.

Lemma expansion_entries (h : Host) (pages : list Page) (p q : Page)
    (m : jsstring) :
  In p pages -> matchPath_truthy p = false ->
  In q pages -> hasPattern h q = true -> matchPath q = Some m ->
  route_match h m (path p) = true ->
  exists entries es eq,
    collectEntries h pages = Ok entries
    /\ In es entries /\ In eq entries
    /\ projectEntry es = mkMatchPath (path p) (path p)
    /\ e_score es = rankRoute (path p)
    /\ projectEntry eq = mkMatchPath (path q) m
    /\ e_score eq = rankRoute m.
Proof.
  intros Hp Fp Hq Pq Mq Match.
  destruct (collectEntries_ok h pages) as (ex & im & _ & E & CharE & CharI).
  destruct (In_nth_error _ _ Hp) as (j & Hj).
  destruct (In_nth_error _ _ Hq) as (k & Hk).
  assert (Ineq : In (mkEntry q m k (rankRoute m)) ex).
  { apply CharE. now exists k, q, m. }
  assert (Inside : isInsideMatchPath h ex p = true).
  { unfold isInsideMatchPath. apply existsb_exists.
    exists (mkEntry q m k (rankRoute m)). split; [exact Ineq|].
    simpl. now rewrite Fp, Match. }
  pose (p' := {| path := path p; component := component p;
                 componentChunkName := componentChunkName p;
                 matchPath := Some (path p) |}).
  assert (Ines : In (mkEntry p' (path p) j (rankRoute (path p))) im).
  { apply CharI. exists j, p, p'. split; [exact Hj|]. split; [|reflexivity].
    unfold selectImplicit. now rewrite Inside. }
  exists (ex ++ im), (mkEntry p' (path p) j (rankRoute (path p))),
    (mkEntry q m k (rankRoute m)).
  split; [exact E|].
  split; [apply in_or_app; now right|].
  split; [apply in_or_app; now left|].
  now repeat split.
Qed.

Lemma expansion_in_output (h : Host) (pages : list Page) (p q : Page)
    (m : jsstring) :
  In p pages -> matchPath_truthy p = false ->
  In q pages -> hasPattern h q = true -> matchPath q = Some m ->
  route_match h m (path p) = true ->
  exists out,
    getMatchPaths h pages = Ok out
    /\ In (mkMatchPath (path p) (path p)) out
    /\ In (mkMatchPath (path q) m) out
    /\ (rankRoute m < rankRoute (path p) ->
        exists l1 l2 l3,
          out = l1 ++ mkMatchPath (path p) (path p)
                  :: l2 ++ mkMatchPath (path q) m :: l3).
Proof.
  intros Hp Fp Hq Pq Mq Match.
  destruct (expansion_entries h pages p q m Hp Fp Hq Pq Mq Match)
    as (entries & es & eq & E & Ies & Ieq & Pes & Ses & Peq & Seq).
  destruct (getMatchPaths_total h pages) as (entries' & E' & G).
  rewrite E in E'. inversion E'; subst entries'. clear E'.
  eexists. split; [exact G|].
  split; [rewrite <- Pes; apply in_map; now apply stable_sort_In|].
  split; [rewrite <- Peq; apply in_map; now apply stable_sort_In|].
  intros Lt.
  destruct (StronglySorted_before _ _ es eq (sorted_by_score h entries))
    as (l1 & l2 & l3 & Split).
  - now apply stable_sort_In.
  - now apply stable_sort_In.
  - lia.
  - intros ->. lia.
  - exists (map projectEntry l1), (map projectEntry l2), (map projectEntry l3).
    rewrite Split, map_app. simpl. rewrite map_app. simpl.
    now rewrite Pes, Peq.
Qed.

(** C3, as amended: in every page set that contains a page [/app/*]
    with matchPath [/app/*] which the first loop collects (always without
    the major-version-4 flag, under the flag only when its mode is SSG) and
    a page [/app/settings] without a matchPath, [getMatchPaths] returns a
    list with the entry of [/app/settings], matched by its own path, before
    the entry of [/app/*]; on these two pages alone, without the flag, it
    returns exactly these two entries; and in general a page without a
    matchPath whose path matches a collected pattern yields an entry whose
    matchPath is its own path. *)
Theorem implicit_match_expansion :
  forall (h : Host) (pages : list Page),
    (forall wildcard settings : Page,
     In wildcard pages -> In settings pages ->
     path wildcard = js "/app/*" -> matchPath wildcard = Some (js "/app/*") ->
     path settings = js "/app/settings" -> matchPath settings = None ->
     (GATSBY_MAJOR_4 h = true -> getPageMode h wildcard = SSG) ->
     route_match h (js "/app/*") (js "/app/settings") = true ->
     exists out l1 l2 l3,
       getMatchPaths h pages = Ok out
       /\ out = l1 ++ mkMatchPath (js "/app/settings") (js "/app/settings")
                  :: l2 ++ mkMatchPath (js "/app/*") (js "/app/*") :: l3)
    /\ (forall (p q : Page) (m : jsstring),
          In p pages -> matchPath_truthy p = false ->
          In q pages -> hasPattern h q = true -> matchPath q = Some m ->
          route_match h m (path p) = true ->
          exists out,
            getMatchPaths h pages = Ok out
            /\ In (mkMatchPath (path p) (path p)) out
            /\ In (mkMatchPath (path q) m) out)
    /\ spec_match (js "/app/*") (js "/app/settings") = true
    /\ getMatchPaths (host false false) [appWildcard; appSettings]
       = Ok [mkMatchPath (js "/app/settings") (js "/app/settings");
             mkMatchPath (js "/app/*") (js "/app/*")].
Proof.
  intros h pages. split; [|split; [|split; reflexivity]].
  - intros wildcard settings Hw Hs Pw Mw Ps Ms Mode Match.
    assert (Has : hasPattern h wildcard = true).
    { unfold hasPattern, matchPath_truthy. rewrite Mw.
      destruct (GATSBY_MAJOR_4 h); [|reflexivity].
      rewrite (Mode eq_refl). reflexivity. }
    destruct (expansion_in_output h pages settings wildcard (js "/app/*"))
      as (out & G & _ & _ & Order); try assumption.
    + unfold matchPath_truthy. now rewrite Ms.
    + now rewrite Ps.
    + rewrite Ps, Pw in Order.
      destruct Order as (l1 & l2 & l3 & Split); [reflexivity|].
      now exists out, l1, l2, l3.
  - intros p q m Hp Fp Hq Pq Mq Match.
    destruct (expansion_in_output h pages p q m) as (out & G & Ip & Iq & _);
      try assumption.
    now exists out.
Qed.

Lemma implicit_match_expansion_witness :
  (exists out l1 l2 l3,
     getMatchPaths (host false false) [appWildcard; appSettings] = Ok out
     /\ out = l1 ++ mkMatchPath (js "/app/settings") (js "/app/settings")
                :: l2 ++ mkMatchPath (js "/app/*") (js "/app/*") :: l3)
  /\ (exists out,
        getMatchPaths (host false false) [appWildcard; appSettings] = Ok out
        /\ In (mkMatchPath (path appSettings) (path appSettings)) out
        /\ In (mkMatchPath (path appWildcard) (js "/app/*")) out).
Proof.
  destruct (implicit_match_expansion (host false false)
              [appWildcard; appSettings]) as (Example & General & _).
  split.
  - apply (Example appWildcard appSettings);
      [now left | right; now left | reflexivity | reflexivity | reflexivity
      | reflexivity | discriminate | reflexivity].
  - apply (General appSettings appWildcard (js "/app/*"));
      [right; now left | reflexivity | now left | reflexivity | reflexivity
      | reflexivity].
Defined.

(** C3, as stated, fails under the major-version-4 flag: a page [/app/*]
    with matchPath [/app/*] whose mode is not SSG is not collected, so for
    it and the page [/app/settings], which the matcher does accept for the
    pattern, [getMatchPaths] returns the empty list. *)
Lemma implicit_match_expansion_needs_SSG :
  path (mkPage (js "/app/*") (js "ssr.js") (js "component---app")
          (Some (js "/app/*"))) = js "/app/*"
  /\ matchPath (mkPage (js "/app/*") (js "ssr.js") (js "component---app")
                  (Some (js "/app/*"))) = Some (js "/app/*")
  /\ path appSettings = js "/app/settings"
  /\ matchPath appSettings = None
  /\ GATSBY_MAJOR_4 (host true false) = true
  /\ getPageMode (host true false)
       (mkPage (js "/app/*") (js "ssr.js") (js "component---app")
          (Some (js "/app/*"))) = SSR
  /\ route_match (host true false) (js "/app/*") (js "/app/settings") = true
  /\ getMatchPaths (host true false)
       [mkPage (js "/app/*") (js "ssr.js") (js "component---app")
          (Some (js "/app/*"));
        appSettings]
     = Ok [].
Proof. repeat split. Qed.

(** C4: two pages that carry the same matchPath are not separated by the
    comparator, so the stable sort leaves them in input order: the two
    orders of the same two pages give two different outputs, under every
    host whose [localeCompare] answers 0 on equal strings. *)
Theorem getMatchPaths_order_follows_input :
  forall h : Host,
    localeCompare h (js "/x/*") (js "/x/*") = 0 ->
    hasPattern h blogA = true -> hasPattern h blogB = true ->
    Permutation [blogA; blogB] [blogB; blogA]
    /\ getMatchPaths h [blogA; blogB]
       = Ok [mkMatchPath (js "/a") (js "/x/*");
             mkMatchPath (js "/b") (js "/x/*")]
    /\ getMatchPaths h [blogB; blogA]
       = Ok [mkMatchPath (js "/b") (js "/x/*");
             mkMatchPath (js "/a") (js "/x/*")]
    /\ getMatchPaths h [blogA; blogB] <> getMatchPaths h [blogB; blogA].
Proof.
  intros h Zero Pa Pb.
  assert (Ta : matchPath_truthy blogA = true) by reflexivity.
  assert (Tb : matchPath_truthy blogB = true) by reflexivity.
  assert (Ga : getMatchPaths h [blogA; blogB]
               = Ok [mkMatchPath (js "/a") (js "/x/*");
                     mkMatchPath (js "/b") (js "/x/*")]).
  { unfold getMatchPaths, collectEntries, explicitEntries, pushEntries,
      selectExplicit, selectImplicit, isInsideMatchPath.
    rewrite Pa, Pb.
    cbn [createMatchPathEntry matchPath blogA blogB bind app existsb].
    rewrite Ta, Tb.
    cbn [negb andb orb bind app stable_sort fold_right sort_insert].
    unfold compareEntries. cbn [e_score e_matchPath].
    rewrite Z.sub_diag. cbn [Z.eqb negb]. rewrite Zero. reflexivity. }
  assert (Gb : getMatchPaths h [blogB; blogA]
               = Ok [mkMatchPath (js "/b") (js "/x/*");
                     mkMatchPath (js "/a") (js "/x/*")]).
  { unfold getMatchPaths, collectEntries, explicitEntries, pushEntries,
      selectExplicit, selectImplicit, isInsideMatchPath.
    rewrite Pa, Pb.
    cbn [createMatchPathEntry matchPath blogA blogB bind app existsb].
    rewrite Ta, Tb.
    cbn [negb andb orb bind app stable_sort fold_right sort_insert].
    unfold compareEntries. cbn [e_score e_matchPath].
    rewrite Z.sub_diag. cbn [Z.eqb negb]. rewrite Zero. reflexivity. }
  split; [apply perm_swap|]. split; [exact Ga|]. split; [exact Gb|].
  rewrite Ga, Gb. intros E. inversion E.
Qed.

Lemma getMatchPaths_order_follows_input_witness :
  getMatchPaths (host false false) [blogA; blogB]
  <> getMatchPaths (host false false) [blogB; blogA].
Proof.
  apply (getMatchPaths_order_follows_input (host false false));
    reflexivity.
Defined.

(** A panic of [createMatchPathEntry] ends the loop, whatever was pushed
    so far. *)
Lemma pushEntries_panics (select : Page -> option Page) (before : list Page) :
  forall (page page' : Page) (after : list Page) (index : nat)
         (acc : list IMatchPathEntry),
    select page = Some page' -> matchPath page' = None ->
    exists r r',
      In r (before ++ page :: after) /\ select r = Some r'
      /\ matchPath r' = None
      /\ pushEntries select (before ++ page :: after) index acc
         = Panic (panic_message r').
Proof.
  induction before as [|b before IH]; intros page page' after index acc Sel Mp.
  - exists page, page'. split; [now left|]. split; [exact Sel|].
    split; [exact Mp|].
    simpl. rewrite Sel. unfold createMatchPathEntry. now rewrite Mp.
  - simpl. destruct (select b) as [b'|] eqn:Sb.
    + unfold createMatchPathEntry at 1.
      destruct (matchPath b') as [m|] eqn:Mb.
      * cbn [bind].
        destruct (IH page page' after (S index)
                    (acc ++ [mkEntry b' m index (rankRoute m)]) Sel Mp)
          as (r & r' & Hr & Sr & Mr & E).
        exists r, r'. split; [now right|]. now repeat split.
      * exists b, b'. split; [now left|]. now repeat split.
    + destruct (IH page page' after (S index) acc Sel Mp)
        as (r & r' & Hr & Sr & Mr & E).
      exists r, r'. split; [now right|]. now repeat split.
Qed.

Lemma isInsideMatchPath_falsy (h : Host) (entries : list IMatchPathEntry)
    (p : Page) :
  isInsideMatchPath h entries p = true -> matchPath_truthy p = false.
Proof.
  unfold isInsideMatchPath. intros H. apply existsb_exists in H.
  destruct H as (e & _ & H). apply andb_true_iff in H.
  destruct H as (H & _). now apply negb_true_iff in H.
Qed.

Lemma PageMode_eqb_eq (a b : PageMode) : PageMode_eqb a b = true <-> a = b.
Proof. destruct a, b; simpl; split; congruence. Qed.

(** C10: under the major-version-4 flag the first loop makes an entry for
    exactly the pages whose matchPath is truthy and whose mode is SSG; a
    page with a matchPath and another mode has no entry at all, neither an
    explicit one nor a new match. *)
Theorem major4_explicit_entries_need_SSG :
  forall (h : Host) (pages : list Page),
    GATSBY_MAJOR_4 h = true ->
    exists explicit entries,
      explicitEntries h pages = Ok explicit
      /\ collectEntries h pages = Ok entries
      /\ (forall e,
            In e explicit <->
            exists k p m,
              nth_error pages k = Some p
              /\ matchPath p = Some m /\ truthy m = true
              /\ getPageMode h p = SSG
              /\ e = mkEntry p m k (rankRoute m))
      /\ (forall k p,
            nth_error pages k = Some p ->
            matchPath_truthy p = true -> getPageMode h p <> SSG ->
            forall e, In e entries -> e_index e <> k).
Proof.
  intros h pages Flag.
  destruct (collectEntries_ok h pages) as (ex & im & X & E & CharE & CharI).
  assert (Has : forall p, hasPattern h p = true <->
                          matchPath_truthy p = true /\ getPageMode h p = SSG).
  { intros p. unfold hasPattern. rewrite Flag, andb_true_iff.
    now rewrite PageMode_eqb_eq. }
  exists ex, (ex ++ im). split; [exact X|]. split; [exact E|]. split.
  - intros e. rewrite CharE. split.
    + intros (k & p & m & Hk & Hp & Hm & ->).
      apply Has in Hp. destruct Hp as (T & Mode).
      exists k, p, m. unfold matchPath_truthy in T. rewrite Hm in T.
      now repeat split.
    + intros (k & p & m & Hk & Hm & T & Mode & ->).
      exists k, p, m. split; [exact Hk|]. split; [|now split].
      apply Has. unfold matchPath_truthy. rewrite Hm. now split.
  - intros k p Hk T Mode e He Idx.
    apply in_app_or in He. destruct He as [He|He].
    + apply CharE in He. destruct He as (k' & p0 & m & Hk' & Hp & _ & ->).
      simpl in Idx. subst k'. rewrite Hk in Hk'. inversion Hk'; subst p0.
      apply Has in Hp. now destruct Hp.
    + apply CharI in He. destruct He as (k' & p0 & p' & Hk' & Hs & ->).
      simpl in Idx. subst k'. rewrite Hk in Hk'. inversion Hk'; subst p0.
      apply selectImplicit_Some in Hs. destruct Hs as (Inside & _).
      apply isInsideMatchPath_falsy in Inside. congruence.
Qed.

Lemma major4_explicit_entries_need_SSG_witness :
  exists explicit entries,
    explicitEntries (host true false) [ssrPage; appWildcard] = Ok explicit
    /\ collectEntries (host true false) [ssrPage; appWildcard] = Ok entries
    /\ forall e, In e entries -> e_index e <> 0%nat.
Proof.
  destruct (major4_explicit_entries_need_SSG (host true false)
              [ssrPage; appWildcard] eq_refl)
    as (explicit & entries & X & E & _ & None).
  exists explicit, entries. split; [exact X|]. split; [exact E|].
  apply (None 0%nat ssrPage); [reflexivity | reflexivity |].
  vm_compute. discriminate.
Defined.

(** ** writeAll *)

Lemma option_eqb_eq (a : option jsstring) (b : jsstring) :
  option_eqb a b = true <-> a = Some b.
Proof.
  destruct a as [x|]; simpl; [|split; discriminate].
  rewrite eqb_eq. split; congruence.
Qed.

Lemma writeAndMove_effects (h : Host) (d : Disk)
    (directory virtualFilePath file data : jsstring) :
  exists rest,
    fst (writeAndMove h d directory virtualFilePath file data)
    = WriteModule virtualFilePath data :: rest
    /\ forall e, In e rest -> forall v x, e <> WriteModule v x.
Proof.
  unfold writeAndMove. cbv zeta.
  destruct (writeFile_ok d _); [destruct (move_ok d _ _)|]; simpl;
    eexists; (split; [reflexivity|]);
    intros e He v x; simpl in He;
    repeat (destruct He as [<-|He]; [discriminate|]); destruct He.
Qed.

Lemma writeAll_unchanged (h : Host) (d : Disk) (state : IGatsbyState)
    (w : World) (matchPaths : list IGatsbyPageMatchPath) :
  getMatchPaths h (pages state) = Ok matchPaths ->
  lastHash w
  = Some (createHash h matchPaths (getComponents (pages state))
            (cleanedSSRVisitedPageComponents h state
               (getComponents (pages state)))) ->
  writeAll h d state w = (Resolved false, w).
Proof.
  intros G L. unfold writeAll. rewrite G. cbv zeta.
  apply option_eqb_eq in L. now rewrite L.
Qed.

Lemma writeAll_changed (h : Host) (d : Disk) (state : IGatsbyState)
    (w : World) (matchPaths : list IGatsbyPageMatchPath) :
  getMatchPaths h (pages state) = Ok matchPaths ->
  lastHash w
  <> Some (createHash h matchPaths (getComponents (pages state))
             (cleanedSSRVisitedPageComponents h state
                (getComponents (pages state)))) ->
  writeAll h d state w
  = (if forallb snd
          (artifactWrites h d state matchPaths (getComponents (pages state)))
     then Resolved true else Rejected,
     {| lastHash :=
          Some (createHash h matchPaths (getComponents (pages state))
                  (cleanedSSRVisitedPageComponents h state
                     (getComponents (pages state))));
        effects :=
          effects w
          ++ writeSsrSyncRequires h
               (cleanedSSRVisitedPageComponents h state
                  (getComponents (pages state)))
          ++ List.concat
               (map fst
                  (artifactWrites h d state matchPaths
                     (getComponents (pages state)))) |}).
Proof.
  intros G L. unfold writeAll. rewrite G. cbv zeta.
  destruct (option_eqb (lastHash w) _) eqn:E;
    [apply option_eqb_eq in E; contradiction|].
  unfold promiseAll, add_effects, set_lastHash. cbn [lastHash effects].
  rewrite <- app_assoc.
  destruct (forallb snd _); reflexivity.
Qed.

Lemma artifactWrites_effects (h : Host) (d : Disk) (state : IGatsbyState)
    (matchPaths : list IGatsbyPageMatchPath)
    (components : list IGatsbyPageComponent) :
  In (WriteModule (js "$virtual/sync-requires.js") (syncRequires h components))
    (List.concat (map fst (artifactWrites h d state matchPaths components)))
  /\ forall v x,
       In (WriteModule v x)
         (List.concat (map fst (artifactWrites h d state matchPaths components)))
       -> v = js "$virtual/sync-requires.js"
          \/ v = js "$virtual/async-requires.js"
          \/ v = js "$virtual/match-paths.json".
Proof.
  unfold artifactWrites. cbn [map List.concat].
  destruct (writeAndMove_effects h d (program_directory state)
              (js "$virtual/sync-requires.js") (js "sync-requires.js")
              (syncRequires h components)) as (r1 & -> & N1).
  destruct (writeAndMove_effects h d (program_directory state)
              (js "$virtual/async-requires.js") (js "async-requires.js")
              (asyncRequires h components)) as (r2 & -> & N2).
  destruct (writeAndMove_effects h d (program_directory state)
              (js "$virtual/match-paths.json") (js "match-paths.json")
              (stringify_pretty h matchPaths)) as (r3 & -> & N3).
  split; [now left|].
  intros v x Hin. rewrite app_nil_r in Hin.
  repeat (apply in_app_or in Hin; destruct Hin as [Hin|Hin]);
    destruct Hin as [E|Hin];
    try (inversion E; subst; tauto);
    exfalso;
    [ apply (N1 _ Hin v x) | apply (N2 _ Hin v x) | apply (N3 _ Hin v x) ];
    reflexivity.
Qed.

(** After any run, a run on the same state changes nothing and resolves
    to [false]. *)
Lemma writeAll_then_skipped (h : Host) (d d' : Disk) (state : IGatsbyState)
    (w : World) :
  writeAll h d' state (snd (writeAll h d state w))
  = (Resolved false, snd (writeAll h d state w)).
Proof.
  destruct (getMatchPaths_total h (pages state)) as (entries & _ & G).
  set (newHash :=
         createHash h (map projectEntry (stable_sort (compareEntries h) entries))
           (getComponents (pages state))
           (cleanedSSRVisitedPageComponents h state
              (getComponents (pages state)))).
  assert (Dec : lastHash w = Some newHash \/ lastHash w <> Some newHash).
  { destruct (option_eqb (lastHash w) newHash) eqn:E.
    - left. now apply option_eqb_eq.
    - right. intros C. apply option_eqb_eq in C. congruence. }
  destruct Dec as [Same|Diff].
  - rewrite (writeAll_unchanged h d state w _ G Same). cbn [snd].
    now apply (writeAll_unchanged h d' state w _ G).
  - rewrite (writeAll_changed h d state w _ G Diff). cbn [snd].
    now apply (writeAll_unchanged h d' state _ _ G).
Qed.

(** C6: a run that follows a run on the same state resolves to [false] and
    leaves the world, the log of writes included, as it was; a run resolves
    to [false] exactly when the fingerprint equals [lastHash], and every
    other run writes. *)
Theorem unchanged_state_is_skipped :
  forall (h : Host) (d d' : Disk) (state : IGatsbyState) (w : World),
    writeAll h d' state (snd (writeAll h d state w))
    = (Resolved false, snd (writeAll h d state w))
    /\ exists matchPaths,
         getMatchPaths h (pages state) = Ok matchPaths
         /\ (fst (writeAll h d state w) = Resolved false <->
             lastHash w
             = Some (createHash h matchPaths (getComponents (pages state))
                       (cleanedSSRVisitedPageComponents h state
                          (getComponents (pages state)))))
         /\ (lastHash w
             = Some (createHash h matchPaths (getComponents (pages state))
                       (cleanedSSRVisitedPageComponents h state
                          (getComponents (pages state)))) ->
             writeAll h d state w = (Resolved false, w))
         /\ (lastHash w
             <> Some (createHash h matchPaths (getComponents (pages state))
                        (cleanedSSRVisitedPageComponents h state
                           (getComponents (pages state)))) ->
             exists es,
               es <> []
               /\ effects (snd (writeAll h d state w)) = effects w ++ es).
Proof.
  intros h d d' state w. split; [apply writeAll_then_skipped|].
  destruct (getMatchPaths_total h (pages state)) as (entries & _ & G).
  eexists. split; [exact G|].
  split; [|split].
  - split.
    + intros R.
      destruct (option_eqb (lastHash w)
                  (createHash h
                     (map projectEntry (stable_sort (compareEntries h) entries))
                     (getComponents (pages state))
                     (cleanedSSRVisitedPageComponents h state
                        (getComponents (pages state))))) eqn:E.
      * now apply option_eqb_eq.
      * exfalso.
        assert (Diff : lastHash w
                       <> Some (createHash h
                                  (map projectEntry
                                     (stable_sort (compareEntries h) entries))
                                  (getComponents (pages state))
                                  (cleanedSSRVisitedPageComponents h state
                                     (getComponents (pages state))))).
        { intros C. apply option_eqb_eq in C. congruence. }
        rewrite (writeAll_changed h d state w _ G Diff) in R. cbn [fst] in R.
        destruct (forallb snd _); discriminate.
    + intros Same. now rewrite (writeAll_unchanged h d state w _ G Same).
  - intros Same. exact (writeAll_unchanged h d state w _ G Same).
  - intros Diff. rewrite (writeAll_changed h d state w _ G Diff).
    cbn [snd effects]. eexists. split; [|reflexivity].
    intros Nil. apply app_eq_nil in Nil. destruct Nil as (_ & Nil).
    destruct (artifactWrites_effects h d state
                (map projectEntry (stable_sort (compareEntries h) entries))
                (getComponents (pages state))) as (Hin & _).
    rewrite Nil in Hin. destruct Hin.
Qed.

Lemma unchanged_state_is_skipped_witness :
  writeAll (host false true) goodDisk appState
    (snd (writeAll (host false true) goodDisk appState emptyWorld))
  = (Resolved false,
     snd (writeAll (host false true) goodDisk appState emptyWorld))
  /\ exists es,
       es <> []
       /\ effects (snd (writeAll (host false true) goodDisk appState emptyWorld))
          = effects emptyWorld ++ es.
Proof.
  destruct (unchanged_state_is_skipped (host false true) goodDisk goodDisk
              appState emptyWorld)
    as (Skip & matchPaths & _ & _ & _ & Diff).
  split; [exact Skip|]. apply Diff. discriminate.
Defined.




Lemma existsb_eqb_In (name : jsstring) (visited : list jsstring) :
  existsb (fun s => eqb s name) visited = true <-> In name visited.
Proof.
  rewrite existsb_exists. split.
  - intros (s & Hs & E). apply eqb_eq in E. now subst.
  - intros H. exists name. split; [exact H | apply eqb_refl].
Qed.

Lemma map_get_first (key : jsstring) (before : list (jsstring * list jsstring))
    (value : list jsstring) (after : list (jsstring * list jsstring)) :
  (forall k v, In (k, v) before -> k <> key) ->
  map_get key (before ++ (key, value) :: after) = Some value.
Proof.
  induction before as [|[k v] before IH]; intros No; simpl.
  - now rewrite eqb_refl.
  - assert (Ne : eqb k key = false).
    { apply eqb_neq. apply (No k v). now left. }
    rewrite Ne. apply IH. intros k' v' Hin. apply (No k' v'). now right.
Qed.

Lemma map_get_absent (key : jsstring) (m : list (jsstring * list jsstring)) :
  (forall k v, In (k, v) m -> k <> key) -> map_get key m = None.
Proof.
  induction m as [|[k v] m IH]; intros No; simpl; [reflexivity|].
  assert (Ne : eqb k key = false).
  { apply eqb_neq. apply (No k v). now left. }
  rewrite Ne. apply IH. intros k' v' Hin. apply (No k' v'). now right.
Qed.

(** C8: with the server-rendering flag on, the input of the server-rendering
    manifest is the catalogue restricted, in catalogue order, to the records
    whose chunk name is in the set that [state.visitedPages] holds under
    [server] (empty when there is no such set), and a run that writes
    writes the module made of it; with the flag off it is empty and no run
    writes the [ssr-sync-requires] module. *)
Theorem ssr_manifest_is_visited_catalogue :
  forall (h : Host) (state : IGatsbyState),
    (GATSBY_EXPERIMENTAL_DEV_SSR h = true ->
     (forall before visited after,
        visitedPages state = before ++ (js "server", visited) :: after ->
        (forall k v, In (k, v) before -> k <> js "server") ->
        cleanedSSRVisitedPageComponents h state (getComponents (pages state))
        = filter
            (fun c =>
               if in_dec (list_eq_dec N.eq_dec) (c_componentChunkName c)
                    visited
               then true else false)
            (getComponents (pages state))
        /\ (forall c,
              In c (cleanedSSRVisitedPageComponents h state
                      (getComponents (pages state)))
              <-> In c (getComponents (pages state))
                  /\ In (c_componentChunkName c) visited))
     /\ ((forall k v, In (k, v) (visitedPages state) -> k <> js "server") ->
         cleanedSSRVisitedPageComponents h state (getComponents (pages state))
         = [])
     /\ (forall d w,
           fst (writeAll h d state w) <> Resolved false ->
           In (WriteModule (js "$virtual/ssr-sync-requires")
                 (lazySyncRequires h
                    (cleanedSSRVisitedPageComponents h state
                       (getComponents (pages state)))))
             (effects (snd (writeAll h d state w)))))
    /\ (GATSBY_EXPERIMENTAL_DEV_SSR h = false ->
        cleanedSSRVisitedPageComponents h state (getComponents (pages state))
        = []
        /\ forall d w,
             exists es,
               effects (snd (writeAll h d state w)) = effects w ++ es
               /\ forall data,
                    ~ In (WriteModule (js "$virtual/ssr-sync-requires") data)
                        es).
Proof.
  intros h state.
  destruct (getMatchPaths_total h (pages state)) as (entries & _ & G).
  split; intros Flag.
  - split; [|split].
    + intros before visited after Stored First.
      unfold cleanedSSRVisitedPageComponents, ssrVisitedPageComponents.
      rewrite Flag, Stored, (map_get_first _ _ _ _ First).
      split.
      * apply filter_ext. intros c.
        destruct (in_dec _ _ _) as [Hin|Hnot].
        -- now apply existsb_eqb_In.
        -- apply Bool.not_true_iff_false. intros C. apply Hnot.
           now apply existsb_eqb_In.
      * intros c. rewrite filter_In, existsb_eqb_In. reflexivity.
    + intros Absent.
      unfold cleanedSSRVisitedPageComponents, ssrVisitedPageComponents.
      rewrite Flag, (map_get_absent _ _ Absent).
      induction (getComponents (pages state)) as [|c rest IH];
        [reflexivity | exact IH].
    + intros d w R.
      destruct (option_eqb (lastHash w)
                  (createHash h
                     (map projectEntry (stable_sort (compareEntries h) entries))
                     (getComponents (pages state))
                     (cleanedSSRVisitedPageComponents h state
                        (getComponents (pages state))))) eqn:E.
      * apply option_eqb_eq in E.
        rewrite (writeAll_unchanged h d state w _ G E) in R. now elim R.
      * assert (Diff : lastHash w
                       <> Some (createHash h
                                  (map projectEntry
                                     (stable_sort (compareEntries h) entries))
                                  (getComponents (pages state))
                                  (cleanedSSRVisitedPageComponents h state
                                     (getComponents (pages state))))).
        { intros C. apply option_eqb_eq in C. congruence. }
        rewrite (writeAll_changed h d state w _ G Diff). cbn [snd effects].
        apply in_or_app. right. apply in_or_app. left.
        unfold writeSsrSyncRequires. rewrite Flag. now left.
  - split; [unfold cleanedSSRVisitedPageComponents; now rewrite Flag|].
    intros d w.
    destruct (option_eqb (lastHash w)
                (createHash h
                   (map projectEntry (stable_sort (compareEntries h) entries))
                   (getComponents (pages state))
                   (cleanedSSRVisitedPageComponents h state
                      (getComponents (pages state))))) eqn:E.
    + apply option_eqb_eq in E.
      rewrite (writeAll_unchanged h d state w _ G E). cbn [snd].
      exists []. split; [now rewrite app_nil_r|]. intros data [].
    + assert (Diff : lastHash w
                     <> Some (createHash h
                                (map projectEntry
                                   (stable_sort (compareEntries h) entries))
                                (getComponents (pages state))
                                (cleanedSSRVisitedPageComponents h state
                                   (getComponents (pages state))))).
      { intros C. apply option_eqb_eq in C. congruence. }
      rewrite (writeAll_changed h d state w _ G Diff). cbn [snd effects].
      eexists. split; [reflexivity|].
      intros data Hin. unfold writeSsrSyncRequires in Hin. rewrite Flag in Hin.
      cbn [app] in Hin.
      apply artifactWrites_effects in Hin.
      destruct Hin as [C|[C|C]]; vm_compute in C; discriminate.
Qed.

Lemma ssr_manifest_is_visited_catalogue_witness :
  cleanedSSRVisitedPageComponents (host false true) appState
    (getComponents (pages appState))
  = [mkComponent (js "app.js") (js "component---app")]
  /\ cleanedSSRVisitedPageComponents (host false false) appState
       (getComponents (pages appState)) = [].
Proof.
  split.
  - destruct (ssr_manifest_is_visited_catalogue (host false true) appState)
      as (On & _).
    destruct (On eq_refl) as (Stored & _).
    destruct (Stored [] [js "component---app"] [] eq_refl
                (fun k v (H : In (k, v) []) => match H with end))
      as (E & _).
    rewrite E. vm_compute. reflexivity.
  - destruct (ssr_manifest_is_visited_catalogue (host false false) appState)
      as (_ & Off).
    destruct (Off eq_refl) as (Empty & _). exact Empty.
Defined.

(** ** The debounced driver *)

Module DebounceFacts.
Import Debounce.

Lemma last_cons (l : list Z) :
  forall x d : Z, last (x :: l) d = last l x.
Proof.
  induction l as [|y l IH]; intros x d; [reflexivity|].
  change (last (x :: y :: l) d) with (last (y :: l) d).
  now rewrite (IH y d), (IH y x).
Qed.

Lemma feed_burst (first : Z) (rest : list Z) :
  burst debouncedWriteAll_options first rest ->
  feed debouncedWriteAll_options (Scheduled (first + 500) true) rest
  = ([], Scheduled (last rest first + 500) true).
Proof.
  revert first. induction rest as [|t rest IH]; intros first B.
  - reflexivity.
  - destruct B as (Window & B). cbn [wait debouncedWriteAll_options] in Window.
    cbn [feed advance]. destruct (Z.leb_spec (first + 500) t); [lia|].
    cbn [notify wait debouncedWriteAll_options].
    rewrite (IH t B). cbn [app]. now rewrite last_cons.
Qed.

Lemma burst_before_last (first : Z) (rest : list Z) :
  burst debouncedWriteAll_options first rest ->
  first <= last rest first
  /\ forall t, In t rest -> t <= last rest first.
Proof.
  revert first. induction rest as [|t rest IH]; intros first B.
  - split; [simpl; lia | intros t []].
  - destruct B as (Window & B). destruct (IH t B) as (Le & All).
    rewrite last_cons. split; [lia|].
    intros u [<-|Hu]; [exact Le | now apply All].
Qed.

(** C9: with the options [debouncedWriteAll] is built with, a burst of
    notifications starts exactly one pass, 500 time units after the last
    notification and so after every notification of the burst; no pass
    starts at the first notification, and handling a notification never
    starts a pass, in whatever state it arrives. *)
Theorem debounce_fires_once_on_trailing_edge :
  forall (first : Z) (rest : list Z),
    burst debouncedWriteAll_options first rest ->
    passes debouncedWriteAll_options (first :: rest)
    = [last rest first + 500]
    /\ ~ In first (passes debouncedWriteAll_options (first :: rest))
    /\ (forall t, In t (first :: rest) -> t < last rest first + 500)
    /\ (forall (st : State) (t : Z),
          fst (notify debouncedWriteAll_options st t) = []).
Proof.
  intros first rest B.
  assert (P : passes debouncedWriteAll_options (first :: rest)
              = [last rest first + 500]).
  { unfold passes. cbn [feed advance notify leading wait
                        debouncedWriteAll_options].
    rewrite (feed_burst first rest B). reflexivity. }
  destruct (burst_before_last first rest B) as (Le & All).
  split; [exact P|]. split; [|split].
  - rewrite P. intros [E|[]]. lia.
  - intros t [<-|Ht]; [lia|]. specialize (All t Ht). lia.
  - intros [|deadline pending] t; reflexivity.
Qed.

Lemma debounce_fires_once_on_trailing_edge_witness :
  passes debouncedWriteAll_options [0; 100; 300; 799] = [1299]
  /\ ~ In 0 (passes debouncedWriteAll_options [0; 100; 300; 799]).
Proof.
  destruct (debounce_fires_once_on_trailing_edge 0 [100; 300; 799])
    as (One & NotFirst & _).
  - simpl. lia.
  - split; [exact One | exact NotFirst].
Defined.

End DebounceFacts.

(** * Further properties *)

(** ** Segments and ranks *)

Lemma split_slash_not_nil (s : jsstring) : split_slash s <> [].
Proof.
  destruct s as [|c t]; simpl; [discriminate|].
  destruct (is_slash c); [discriminate|].
  destruct (split_slash t); discriminate.
Qed.

Lemma split_slash_no_slash (s : jsstring) :
  Forall (fun seg => forallb (fun c => negb (is_slash c)) seg = true)
    (split_slash s).
Proof.
  induction s as [|c t IH]; simpl.
  - constructor; [reflexivity | constructor].
  - destruct (is_slash c) eqn:Sc.
    + constructor; [reflexivity | exact IH].
    + destruct (split_slash t) as [|seg rest].
      * constructor; [simpl; now rewrite Sc | constructor].
      * inversion IH; subst. constructor; [simpl; now rewrite Sc | assumption].
Qed.

Lemma join_split_slash (s : jsstring) : join [SLASH] (split_slash s) = s.
Proof.
  induction s as [|c t IH]; [reflexivity|].
  simpl. destruct (is_slash c) eqn:Sc.
  - apply N.eqb_eq in Sc. subst c.
    pose proof (split_slash_not_nil t) as Ne.
    destruct (split_slash t) as [|seg rest]; [contradiction|].
    change (join [SLASH] ([] :: seg :: rest))
      with ([] ++ [SLASH] ++ join [SLASH] (seg :: rest)).
    now rewrite IH.
  - pose proof (split_slash_not_nil t) as Ne.
    destruct (split_slash t) as [|seg rest]; [contradiction|].
    destruct rest as [|seg' rest].
    + simpl in *. now rewrite IH.
    + change (join [SLASH] ((c :: seg) :: seg' :: rest))
        with ((c :: seg) ++ [SLASH] ++ join [SLASH] (seg' :: rest)).
      change (join [SLASH] (seg :: seg' :: rest))
        with (seg ++ [SLASH] ++ join [SLASH] (seg' :: rest)) in IH.
      simpl. now rewrite <- IH.
Qed.

Lemma split_slash_segment (seg : jsstring) :
  forallb (fun c => negb (is_slash c)) seg = true ->
  forall rest : jsstring,
    split_slash (seg ++ SLASH :: rest) = seg :: split_slash rest.
Proof.
  induction seg as [|c seg IH]; intros No rest; [reflexivity|].
  simpl in No. apply andb_true_iff in No. destruct No as (Nc & No).
  apply negb_true_iff in Nc. simpl. rewrite Nc. now rewrite IH.
Qed.

Lemma split_slash_single (seg : jsstring) :
  forallb (fun c => negb (is_slash c)) seg = true ->
  split_slash seg = [seg].
Proof.
  induction seg as [|c seg IH]; intros No; [reflexivity|].
  simpl in No. apply andb_true_iff in No. destruct No as (Nc & No).
  apply negb_true_iff in Nc. simpl. rewrite Nc. now rewrite IH.
Qed.

Lemma split_slash_join (segs : list jsstring) :
  segs <> [] ->
  Forall (fun seg => forallb (fun c => negb (is_slash c)) seg = true) segs ->
  split_slash (join [SLASH] segs) = segs.
Proof.
  induction segs as [|seg rest IH]; intros Ne F; [contradiction|].
  inversion F as [|? ? Hseg Hrest]; subst.
  destruct rest as [|seg' rest].
  - simpl. now apply split_slash_single.
  - change (join [SLASH] (seg :: seg' :: rest))
      with (seg ++ SLASH :: join [SLASH] (seg' :: rest)).
    rewrite split_slash_segment by assumption.
    f_equal. apply IH; [discriminate | assumption].
Qed.

Lemma split_slash_app (a b : jsstring) :
  split_slash (a ++ SLASH :: b) = split_slash a ++ split_slash b.
Proof.
  induction a as [|c a IH]; [reflexivity|].
  simpl. destruct (is_slash c); [now rewrite IH|].
  rewrite IH. pose proof (split_slash_not_nil a) as Ne.
  destruct (split_slash a); [contradiction | reflexivity].
Qed.

Lemma drop_slashes_suffix (s : jsstring) :
  exists a, forallb is_slash a = true /\ s = a ++ drop_slashes s.
Proof.
  induction s as [|c s (a & Ha & E)]; [now exists []|].
  simpl. destruct (is_slash c) eqn:Sc.
  - exists (c :: a). simpl. rewrite Sc, Ha. split; [reflexivity|].
    now rewrite <- E.
  - now exists [].
Qed.

Lemma drop_slashes_head (s : jsstring) :
  drop_slashes s = [] \/ is_slash (hd SLASH (drop_slashes s)) = false.
Proof.
  induction s as [|c s IH]; [now left|].
  simpl. destruct (is_slash c) eqn:Sc; [exact IH|]. now right.
Qed.

Lemma drop_slashes_fixed (s : jsstring) :
  is_slash (hd SLASH s) = false -> drop_slashes s = s.
Proof.
  destruct s as [|c s]; [reflexivity|]. simpl. now intros ->.
Qed.

Lemma hd_rev (s : jsstring) (d : N) : hd d (rev s) = last s d.
Proof.
  induction s as [|c s IH]; [reflexivity|].
  simpl rev. destruct s as [|c' s]; [reflexivity|].
  change (last (c :: c' :: s) d) with (last (c' :: s) d).
  rewrite <- IH. simpl. destruct (rev s ++ [c']) eqn:E; [|reflexivity].
  destruct (rev s); discriminate.
Qed.

Lemma last_rev (s : jsstring) (d : N) : last (rev s) d = hd d s.
Proof. rewrite <- hd_rev, rev_involutive. reflexivity. Qed.

Lemma last_app_nonempty (a b : jsstring) (d : N) :
  b <> [] -> last (a ++ b) d = last b d.
Proof.
  intros Ne. induction a as [|c a IH]; [reflexivity|].
  simpl. destruct (a ++ b) eqn:E; [|exact IH].
  destruct a; [contradiction | discriminate].
Qed.

Lemma replace_slashes_fixed (s : jsstring) :
  is_slash (hd SLASH s) = false -> is_slash (last s SLASH) = false ->
  replace_slashes s = s.
Proof.
  intros H L. rewrite replace_slashes_strips.
  rewrite (drop_slashes_fixed s H).
  rewrite drop_slashes_fixed by now rewrite hd_rev.
  apply rev_involutive.
Qed.

(** What the replace leaves is empty or starts and ends with a code unit
    that is not a slash. *)
Lemma replace_slashes_trimmed (s : jsstring) :
  replace_slashes s = []
  \/ (is_slash (hd SLASH (replace_slashes s)) = false
      /\ is_slash (last (replace_slashes s) SLASH) = false).
Proof.
  rewrite replace_slashes_strips.
  set (y := drop_slashes s).
  destruct (drop_slashes_head (rev y)) as [E|H]; [left; now rewrite E|].
  right. split; [|now rewrite last_rev].
  rewrite hd_rev.
  destruct (drop_slashes_suffix (rev y)) as (a & _ & E).
  destruct (drop_slashes (rev y)) as [|z zs] eqn:Z; [discriminate H|].
  rewrite <- (last_app_nonempty a (z :: zs)) by discriminate.
  rewrite <- E, last_rev.
  destruct (drop_slashes_head s) as [Y|Y]; [|exact Y].
  fold y in Y. rewrite Y in Z. discriminate.
Qed.

Lemma replace_slashes_outer (a p b : jsstring) :
  forallb is_slash a = true -> forallb is_slash b = true ->
  replace_slashes (a ++ p ++ b) = replace_slashes p.
Proof.
  intros Ha Hb. rewrite !replace_slashes_strips.
  rewrite (drop_slashes_app_all a) by exact Ha.
  destruct (forallb is_slash p) eqn:Hp.
  - rewrite (drop_slashes_app_all p) by exact Hp.
    now rewrite (drop_slashes_all b Hb), (drop_slashes_all p Hp).
  - rewrite (drop_slashes_app_some p) by exact Hp.
    rewrite rev_app_distr.
    now rewrite drop_slashes_app_all by now rewrite forallb_rev.
Qed.

(** X1: [segmentize] always returns at least one segment, and no segment
    contains a slash; the replace removes a run of slashes at each end and
    nothing else; joining the segments with slashes gives back the trimmed
    path, and segmentizing that again gives the same segments. *)
Theorem segmentize_well_formed :
  forall uri : jsstring,
    segmentize uri <> []
    /\ Forall (fun seg => forallb (fun c => negb (is_slash c)) seg = true)
         (segmentize uri)
    /\ (exists a b,
          forallb is_slash a = true /\ forallb is_slash b = true
          /\ uri = a ++ replace_slashes uri ++ b)
    /\ join [SLASH] (segmentize uri) = replace_slashes uri
    /\ segmentize (join [SLASH] (segmentize uri)) = segmentize uri.
Proof.
  intros uri. unfold segmentize.
  split; [apply split_slash_not_nil|].
  split; [apply split_slash_no_slash|].
  split; [|split].
  - rewrite replace_slashes_strips.
    destruct (drop_slashes_suffix uri) as (a & Ha & Ea).
    destruct (drop_slashes_suffix (rev (drop_slashes uri))) as (b & Hb & Eb).
    exists a, (rev b). split; [exact Ha|].
    split; [now rewrite forallb_rev|].
    rewrite <- rev_app_distr, <- Eb, rev_involutive. exact Ea.
  - apply join_split_slash.
  - rewrite join_split_slash. f_equal.
    destruct (replace_slashes_trimmed uri) as [E|(H & L)].
    + now rewrite E.
    + now apply replace_slashes_fixed.
Qed.

(** X2: slashes added in front of a path or behind it change neither its
    segments nor its rank. *)
Theorem rankRoute_ignores_outer_slashes :
  forall a p b : jsstring,
    forallb is_slash a = true -> forallb is_slash b = true ->
    segmentize (a ++ p ++ b) = segmentize p
    /\ rankRoute (a ++ p ++ b) = rankRoute p.
Proof.
  intros a p b Ha Hb. unfold rankRoute, segmentize.
  now rewrite (replace_slashes_outer a p b Ha Hb).
Qed.

Lemma rankRoute_ignores_outer_slashes_witness :
  rankRoute (js "//" ++ js "blog/:slug" ++ js "/") = rankRoute (js "blog/:slug").
Proof.
  apply (rankRoute_ignores_outer_slashes (js "//") (js "blog/:slug") (js "/"));
    reflexivity.
Defined.

Lemma fold_rankStep_app (l1 l2 : list jsstring) :
  fold_left rankStep (l1 ++ l2) 0
  = fold_left rankStep l1 0 + fold_left rankStep l2 0.
Proof.
  rewrite !fold_rankStep_sum, map_app.
  induction l1 as [|x l1 IH]; simpl; lia.
Qed.

(** X3: for two paths that are not empty and neither start nor end with a
    slash, the path made of both with a slash between has the segments of
    the first followed by those of the second, and its rank is the sum of
    the two ranks. *)
Theorem rankRoute_additive :
  forall p s : jsstring,
    is_slash (hd SLASH p) = false -> is_slash (last p SLASH) = false ->
    is_slash (hd SLASH s) = false -> is_slash (last s SLASH) = false ->
    segmentize (p ++ SLASH :: s) = segmentize p ++ segmentize s
    /\ rankRoute (p ++ SLASH :: s) = rankRoute p + rankRoute s.
Proof.
  intros p s Hp Lp Hs Ls.
  assert (Seg : segmentize (p ++ SLASH :: s) = segmentize p ++ segmentize s).
  { unfold segmentize.
    rewrite (replace_slashes_fixed p Hp Lp), (replace_slashes_fixed s Hs Ls).
    rewrite replace_slashes_fixed.
    - apply split_slash_app.
    - destruct p; [discriminate Hp | exact Hp].
    - rewrite last_app_nonempty by discriminate.
      destruct s as [|c s]; [discriminate Hs|]. exact Ls. }
  split; [exact Seg|].
  unfold rankRoute. rewrite Seg. apply fold_rankStep_app.
Qed.

Lemma rankRoute_additive_witness :
  rankRoute (js "blog" ++ SLASH :: js ":slug")
  = rankRoute (js "blog") + rankRoute (js ":slug").
Proof.
  apply (rankRoute_additive (js "blog") (js ":slug")); reflexivity.
Defined.

Lemma rankStep_bounds (score : Z) (segment : jsstring) :
  score - 1 <= rankStep score segment <= score + 7.
Proof.
  rewrite rankStep_points. unfold ScoreSpec.points.
  destruct (eqb segment []); [lia|].
  destruct (ScoreSpec.colon_then_dot segment); [lia|].
  destruct (eqb segment [STAR]); lia.
Qed.

Lemma fold_rankStep_bounds (segments : list jsstring) (score : Z) :
  score - Z.of_nat (List.length segments)
  <= fold_left rankStep segments score
  <= score + 7 * Z.of_nat (List.length segments).
Proof.
  revert score. induction segments as [|seg rest IH]; intros score.
  - simpl. lia.
  - cbn [fold_left]. specialize (IH (rankStep score seg)).
    pose proof (rankStep_bounds score seg).
    change (List.length (seg :: rest)) with (S (List.length rest)). lia.
Qed.

(** X4: a path of [n] segments ranks between [-n] and [7 * n], and at
    least [5 * n] when none of its segments is a splat. *)
Theorem rankRoute_bounds :
  forall p : jsstring,
    - Z.of_nat (List.length (segmentize p)) <= rankRoute p
    /\ rankRoute p <= 7 * Z.of_nat (List.length (segmentize p))
    /\ (Forall (fun seg => isSplat seg = false) (segmentize p) ->
        5 * Z.of_nat (List.length (segmentize p)) <= rankRoute p).
Proof.
  intros p. unfold rankRoute.
  pose proof (fold_rankStep_bounds (segmentize p) 0) as B.
  split; [lia|]. split; [lia|].
  generalize (segmentize p). intros segs F.
  rewrite fold_rankStep_sum.
  induction F as [|seg rest Hseg F IH].
  - simpl. lia.
  - change (List.length (seg :: rest)) with (S (List.length rest)).
    cbn [map fold_right].
    assert (5 <= ScoreSpec.points ScoreSpec.colon_then_dot seg).
    { unfold ScoreSpec.points. unfold isSplat in Hseg. rewrite Hseg.
      destruct (eqb seg []); [lia|].
      destruct (ScoreSpec.colon_then_dot seg); lia. }
    lia.
Qed.

Lemma rankRoute_bounds_witness :
  5 * Z.of_nat (List.length (segmentize (js "/blog/:slug")))
  <= rankRoute (js "/blog/:slug").
Proof.
  destruct (rankRoute_bounds (js "/blog/:slug")) as (_ & _ & Floor).
  apply Floor. repeat constructor.
Defined.

(** ** getComponents, further *)

Lemma first_occurrence {A : Type} (key : A -> jsstring) (l : list A)
    (k : jsstring) :
  In k (map key l) ->
  exists before x after,
    l = before ++ x :: after /\ key x = k
    /\ forall y, In y before -> key y <> k.
Proof.
  induction l as [|a l IH]; intros Hin; [destruct Hin|].
  destruct (list_eq_dec N.eq_dec (key a) k) as [E|Ne].
  - exists [], a, l. split; [reflexivity|]. split; [exact E|]. intros y [].
  - destruct Hin as [E|Hin]; [contradiction|].
    destruct (IH Hin) as (before & x & after & -> & Kx & Hb).
    exists (a :: before), x, after. split; [reflexivity|]. split; [exact Kx|].
    intros y [<-|Hy]; [exact Ne | now apply Hb].
Qed.

Lemma uniqBy_from_length {A : Type} (key : A -> jsstring) (l : list A) :
  forall seen, (List.length (uniqBy_from key seen l) <= List.length l)%nat.
Proof.
  induction l as [|a l IH]; intros seen; simpl; [lia|].
  destruct (existsb (eqb (key a)) seen); simpl.
  - specialize (IH seen). lia.
  - specialize (IH (key a :: seen)). lia.
Qed.

Lemma getComponents_In (pages : list Page) (c : IGatsbyPageComponent) :
  In c (getComponents pages) <->
  exists before page after,
    pages = before ++ page :: after
    /\ c = pickComponentFields page
    /\ forall q, In q before ->
         componentChunkName q <> componentChunkName page.
Proof.
  unfold getComponents, orderBy.
  rewrite stable_sort_In. unfold uniqBy. rewrite uniqBy_from_In.
  split.
  - intros (_ & before & after & E & Hb).
    apply map_split_first in E.
    destruct E as (l1 & page & l2 & -> & <- & <- & _).
    exists l1, page, l2. repeat split.
    intros q Hq. apply (Hb (pickComponentFields q)). now apply in_map.
  - intros (before & page & after & -> & -> & Hb).
    split; [intros []|].
    exists (map pickComponentFields before), (map pickComponentFields after).
    split; [now rewrite map_app|].
    intros y Hy. apply in_map_iff in Hy. destruct Hy as (q & <- & Hq).
    now apply Hb.
Qed.

Lemma getComponents_strict (pages : list Page) :
  StronglySorted
    (fun a b => ltb (c_componentChunkName a) (c_componentChunkName b) = true)
    (getComponents pages).
Proof.
  apply StronglySorted_strict; [apply orderBy_sorted|].
  unfold getComponents, orderBy.
  eapply Permutation_NoDup.
  - apply Permutation_map, Permutation_sym, stable_sort_perm.
  - apply uniqBy_from_NoDup.
Qed.

(** X5: the catalogue has exactly the chunk names of the pages, each of
    them once; every record of it is the projection of a page, and it is
    never longer than the page list; no page gives the empty catalogue. *)
Theorem getComponents_covers_chunk_names :
  forall pages : list Page,
    (forall name,
       In name (map c_componentChunkName (getComponents pages))
       <-> In name (map componentChunkName pages))
    /\ NoDup (map c_componentChunkName (getComponents pages))
    /\ (forall c, In c (getComponents pages) ->
          exists page, In page pages /\ c = pickComponentFields page)
    /\ (List.length (getComponents pages) <= List.length pages)%nat
    /\ (getComponents pages = [] <-> pages = []).
Proof.
  intros pages.
  assert (Names : forall name,
            In name (map c_componentChunkName (getComponents pages))
            <-> In name (map componentChunkName pages)).
  { intros name. split.
    - intros Hin. apply in_map_iff in Hin. destruct Hin as (c & <- & Hc).
      apply getComponents_In in Hc.
      destruct Hc as (before & page & after & -> & -> & _).
      apply in_map_iff. exists page. split; [reflexivity|].
      apply in_or_app. right. now left.
    - intros Hin. apply first_occurrence in Hin.
      destruct Hin as (before & page & after & E & K & Hb).
      apply in_map_iff. exists (pickComponentFields page).
      split; [exact K|]. apply getComponents_In.
      exists before, page, after. split; [exact E|]. split; [reflexivity|].
      intros q Hq. rewrite K. now apply Hb. }
  split; [exact Names|]. split; [|split; [|split]].
  - unfold getComponents, orderBy.
    eapply Permutation_NoDup.
    + apply Permutation_map, Permutation_sym, stable_sort_perm.
    + apply uniqBy_from_NoDup.
  - intros c Hc. apply getComponents_In in Hc.
    destruct Hc as (before & page & after & -> & -> & _).
    exists page. split; [|reflexivity]. apply in_or_app. right. now left.
  - unfold getComponents, orderBy.
    rewrite (Permutation_length (stable_sort_perm _ _)).
    unfold uniqBy. etransitivity; [apply uniqBy_from_length|].
    now rewrite length_map.
  - split.
    + intros E. destruct pages as [|page rest]; [reflexivity|].
      exfalso. specialize (Names (componentChunkName page)).
      rewrite E in Names. apply Names. now left.
    + intros ->. reflexivity.
Qed.

Lemma strict_sorted_same_members {A : Type} (key : A -> jsstring)
    (l1 : list A) :
  forall l2 : list A,
    StronglySorted (fun a b => ltb (key a) (key b) = true) l1 ->
    StronglySorted (fun a b => ltb (key a) (key b) = true) l2 ->
    (forall x, In x l1 <-> In x l2) ->
    l1 = l2.
Proof.
  induction l1 as [|a t1 IH]; intros [|b t2] S1 S2 Same.
  - reflexivity.
  - exfalso. apply (Same b). now left.
  - exfalso. apply (Same a). now left.
  - inversion S1 as [|? ? St1 F1]; subst.
    inversion S2 as [|? ? St2 F2]; subst.
    rewrite Forall_forall in F1, F2.
    assert (a = b) as ->.
    { destruct (proj1 (Same a) (or_introl eq_refl)) as [E|Ha]; [now symmetry|].
      destruct (proj2 (Same b) (or_introl eq_refl)) as [E|Hb]; [exact E|].
      pose proof (F2 a Ha) as Lba. pose proof (F1 b Hb) as Lab.
      rewrite (ltb_asym _ _ Lab) in Lba. discriminate. }
    f_equal. apply IH; try assumption.
    intros x. split; intros Hx.
    + destruct (proj1 (Same x) (or_intror Hx)) as [E|Hx2]; [|exact Hx2].
      subst x. pose proof (F1 b Hx) as C. rewrite ltb_irrefl in C.
      discriminate.
    + destruct (proj2 (Same x) (or_intror Hx)) as [E|Hx1]; [|exact Hx1].
      subst x. pose proof (F2 b Hx) as C. rewrite ltb_irrefl in C.
      discriminate.
Qed.

(** X6: where pages that share a chunk name also share the component, the
    catalogue does not depend on the order of the pages. *)
Theorem getComponents_order_independent :
  forall pages pages' : list Page,
    Permutation pages pages' ->
    (forall p q, In p pages -> In q pages ->
       componentChunkName p = componentChunkName q ->
       component p = component q) ->
    getComponents pages = getComponents pages'.
Proof.
  intros pages pages' Perm Same.
  assert (Char : forall l : list Page,
            Permutation pages l ->
            forall c, In c (getComponents l)
                      <-> In c (map pickComponentFields pages)).
  { intros l Pl c. rewrite getComponents_In. split.
    - intros (before & page & after & -> & -> & _).
      apply in_map. apply (Permutation_in _ (Permutation_sym Pl)).
      apply in_or_app. right. now left.
    - intros Hin. apply in_map_iff in Hin. destruct Hin as (page & <- & Hp).
      assert (Hk : In (componentChunkName page) (map componentChunkName l)).
      { apply in_map. now apply (Permutation_in _ Pl). }
      apply first_occurrence in Hk.
      destruct Hk as (before & first & after & -> & K & Hb).
      exists before, first, after. split; [reflexivity|]. split.
      + unfold pickComponentFields. rewrite K. f_equal.
        symmetry. apply Same; [| exact Hp | exact K].
        apply (Permutation_in _ (Permutation_sym Pl)).
        apply in_or_app. right. now left.
      + intros q Hq. rewrite K. now apply Hb. }
  apply (strict_sorted_same_members c_componentChunkName);
    try apply getComponents_strict.
  intros c. rewrite (Char pages (Permutation_refl _)).
  now rewrite (Char pages' Perm).
Qed.

Lemma getComponents_order_independent_witness :
  getComponents [appWildcard; appSettings; blogA; blogB]
  = getComponents [blogB; appSettings; appWildcard; blogA].
Proof.
  apply getComponents_order_independent.
  - apply perm_trans with [blogB; appWildcard; appSettings; blogA].
    + apply perm_trans with [appWildcard; appSettings; blogB; blogA].
      * do 2 apply perm_skip. apply perm_swap.
      * apply perm_trans with [appWildcard; blogB; appSettings; blogA].
        -- apply perm_skip. apply perm_swap.
        -- apply perm_swap.
    + apply perm_skip. apply perm_swap.
  - intros p q Hp Hq.
    simpl in Hp, Hq.
    repeat (destruct Hp as [<-|Hp]; [|]);
      repeat (destruct Hq as [<-|Hq]; [|]);
      try contradiction; intros E; try reflexivity;
      vm_compute in E; discriminate.
Defined.

(** ** getMatchPaths, further *)

Section MatchPathFacts.
Import MatchPathSpec.
Variable h : Host.

(** The records a loop pushes, in page order. *)
Lemma pushEntries_project (select : Page -> option Page) (pages : list Page) :
  (forall p p', In p pages -> select p = Some p' -> matchPath p' <> None) ->
  forall (index : nat) (acc : list IMatchPathEntry),
  exists news,
    pushEntries select pages index acc = Ok (acc ++ news)
    /\ map projectEntry news
       = flat_map
           (fun p =>
              match select p with
              | Some p' =>
                  match matchPath p' with
                  | Some m => [mkMatchPath (path p') m]
                  | None => []
                  end
              | None => []
              end)
           pages
    /\ Forall (fun e => e_score e = rankRoute (e_matchPath e)) news.
Proof.
  induction pages as [|page rest IH]; intros Hsel index acc.
  - exists []. simpl. rewrite app_nil_r. repeat split. constructor.
  - assert (Hrest : forall p p', In p rest -> select p = Some p' ->
                                 matchPath p' <> None).
    { intros p p' Hp. apply Hsel. now right. }
    simpl. destruct (select page) as [page'|] eqn:Sel.
    + unfold createMatchPathEntry.
      destruct (matchPath page') as [m|] eqn:Mp;
        [|exfalso; now apply (Hsel page page'); [left| |]].
      cbn [bind].
      destruct (IH Hrest (S index)
                  (acc ++ [mkEntry page' m index (rankRoute m)]))
        as (news & E & Proj & Sc).
      exists (mkEntry page' m index (rankRoute m) :: news).
      split; [rewrite E, <- app_assoc; reflexivity|].
      split; [simpl; now rewrite Proj|].
      constructor; [reflexivity | exact Sc].
    + destruct (IH Hrest (S index) acc) as (news & E & Proj & Sc).
      exists news. now repeat split.
Qed.

Lemma isInsideMatchPath_patterns (entries : list IMatchPathEntry) (p : Page) :
  isInsideMatchPath h entries p
  = negb (matchPath_truthy p)
    && existsb (fun m => route_match h m (path p))
         (map mp_matchPath (map projectEntry entries)).
Proof.
  unfold isInsideMatchPath.
  induction entries as [|e entries IH]; simpl.
  - now rewrite andb_false_r.
  - rewrite IH. destruct (negb (matchPath_truthy p)); reflexivity.
Qed.

Lemma flat_map_nil {A B : Type} (f : A -> list B) (l : list A) :
  (forall x, In x l -> f x = []) -> flat_map f l = [].
Proof.
  induction l as [|a l IH]; intros H; [reflexivity|].
  simpl. rewrite (H a) by now left. apply IH. intros x Hx. apply H. now right.
Qed.

(** The entries before sorting, as records: the explicit ones in page
    order, then the implicit ones in page order; each entry's score is the
    rank of its [matchPath]. *)
Lemma collectEntries_project (pages : list Page) :
  exists entries,
    collectEntries h pages = Ok entries
    /\ map projectEntry entries = unsorted h pages
    /\ Forall (fun e => e_score e = rankRoute (e_matchPath e)) entries.
Proof.
  unfold collectEntries, explicitEntries.
  destruct (pushEntries_project (selectExplicit h) pages)
    with (index := 0%nat) (acc := @nil IMatchPathEntry)
    as (explicit & E & ProjE & ScE).
  { intros p p' _. unfold selectExplicit.
    destruct (hasPattern h p) eqn:Hp; [|discriminate].
    intros Ep. inversion Ep; subst.
    destruct (matchPath_truthy_Some _ (hasPattern_truthy _ _ Hp)) as (m & ->).
    discriminate. }
  simpl in E. rewrite E. cbn [bind].
  assert (ProjE' : map projectEntry explicit = flat_map (explicitOf h) pages).
  { rewrite ProjE. apply flat_map_ext. intros p.
    unfold selectExplicit, explicitOf. destruct (hasPattern h p); reflexivity. }
  assert (Pats : map mp_matchPath (map projectEntry explicit)
                 = patternsOf h pages).
  { unfold patternsOf. now rewrite ProjE'. }
  destruct explicit as [|e0 explicit'].
  - exists []. split; [reflexivity|]. split; [|constructor].
    unfold unsorted. rewrite <- ProjE'. simpl.
    symmetry. apply flat_map_nil. intros p _.
    unfold implicitOf. rewrite <- Pats. simpl. now rewrite andb_false_r.
  - destruct (pushEntries_project (selectImplicit h (e0 :: explicit')) pages)
      with (index := 0%nat) (acc := @nil IMatchPathEntry)
      as (implicit & I & ProjI & ScI).
    { intros p p' _ Hs. apply selectImplicit_Some in Hs.
      destruct Hs as (_ & _ & ->). discriminate. }
    cbn [app] in I. rewrite I. cbn [bind].
    exists ((e0 :: explicit') ++ implicit).
    split; [reflexivity|]. split.
    + rewrite map_app. unfold unsorted. rewrite <- ProjE'. f_equal.
      rewrite ProjI. apply flat_map_ext. intros p.
      unfold selectImplicit, implicitOf.
      rewrite isInsideMatchPath_patterns, Pats.
      destruct (negb (matchPath_truthy p) && _); reflexivity.
    + apply Forall_app. now split.
Qed.

Lemma compareEntries_project (a b : IMatchPathEntry) :
  e_score a = rankRoute (e_matchPath a) ->
  e_score b = rankRoute (e_matchPath b) ->
  compareEntries h a b = compareMatchPaths h (projectEntry a) (projectEntry b).
Proof.
  intros Sa Sb. unfold compareEntries, compareMatchPaths. simpl.
  now rewrite Sa, Sb.
Qed.

Lemma sort_insert_project (x : IMatchPathEntry) (l : list IMatchPathEntry) :
  e_score x = rankRoute (e_matchPath x) ->
  Forall (fun e => e_score e = rankRoute (e_matchPath e)) l ->
  map projectEntry (sort_insert (compareEntries h) x l)
  = sort_insert (compareMatchPaths h) (projectEntry x) (map projectEntry l).
Proof.
  intros Sx F. induction F as [|y l Sy F IH]; [reflexivity|].
  simpl. rewrite (compareEntries_project x y Sx Sy).
  destruct (compareMatchPaths h (projectEntry x) (projectEntry y) <=? 0);
    [reflexivity|].
  simpl. now rewrite IH.
Qed.

Lemma stable_sort_project (l : list IMatchPathEntry) :
  Forall (fun e => e_score e = rankRoute (e_matchPath e)) l ->
  map projectEntry (stable_sort (compareEntries h) l)
  = stable_sort (compareMatchPaths h) (map projectEntry l).
Proof.
  intros F. induction F as [|x l Sx F IH]; [reflexivity|].
  simpl. rewrite sort_insert_project.
  - now rewrite IH.
  - exact Sx.
  - apply Forall_forall. intros e He. apply stable_sort_In in He.
    rewrite Forall_forall in F. now apply F.
Qed.

(** [getMatchPaths] as one expression. *)
Lemma getMatchPaths_spec (pages : list Page) :
  getMatchPaths h pages
  = Ok (stable_sort (compareMatchPaths h) (unsorted h pages)).
Proof.
  destruct (collectEntries_project pages) as (entries & E & Proj & Sc).
  unfold getMatchPaths. rewrite E. cbn [bind].
  now rewrite (stable_sort_project entries Sc), Proj.
Qed.

End MatchPathFacts.

Lemma explicitOf_In (h : Host) (pages : list Page)
    (mp : IGatsbyPageMatchPath) :
  In mp (flat_map (MatchPathSpec.explicitOf h) pages) <->
  exists q,
    In q pages /\ hasPattern h q = true
    /\ matchPath q = Some (mp_matchPath mp) /\ mp_path mp = path q.
Proof.
  rewrite in_flat_map. unfold MatchPathSpec.explicitOf. split.
  - intros (q & Hq & Hin). exists q. split; [exact Hq|].
    destruct (hasPattern h q); [|destruct Hin].
    destruct (matchPath q) as [m|]; [|destruct Hin].
    destruct Hin as [<-|[]]. now repeat split.
  - intros (q & Hq & Hp & Hm & Pq). exists q. split; [exact Hq|].
    rewrite Hp, Hm. left. destruct mp; simpl in *. now subst.
Qed.

Lemma patternsOf_In (h : Host) (pages : list Page) (m : jsstring) :
  In m (MatchPathSpec.patternsOf h pages) <->
  exists q, In q pages /\ hasPattern h q = true /\ matchPath q = Some m.
Proof.
  unfold MatchPathSpec.patternsOf. rewrite in_map_iff. split.
  - intros (mp & <- & Hin). apply explicitOf_In in Hin.
    destruct Hin as (q & Hq & Hp & Hm & _). now exists q.
  - intros (q & Hq & Hp & Hm). exists (mkMatchPath (path q) m).
    split; [reflexivity|]. apply explicitOf_In. now exists q.
Qed.

Lemma implicitOf_In (h : Host) (patterns : list jsstring) (pages : list Page)
    (mp : IGatsbyPageMatchPath) :
  In mp (flat_map (MatchPathSpec.implicitOf h patterns) pages) <->
  exists p m,
    In p pages /\ matchPath_truthy p = false
    /\ mp = mkMatchPath (path p) (path p)
    /\ In m patterns /\ route_match h m (path p) = true.
Proof.
  rewrite in_flat_map. unfold MatchPathSpec.implicitOf. split.
  - intros (p & Hp & Hin).
    destruct (negb (matchPath_truthy p)
              && existsb (fun m => route_match h m (path p)) patterns) eqn:E;
      [|destruct Hin].
    destruct Hin as [<-|[]].
    apply andb_true_iff in E. destruct E as (T & Ex).
    apply negb_true_iff in T. apply existsb_exists in Ex.
    destruct Ex as (m & Hm & R). now exists p, m.
  - intros (p & m & Hp & T & -> & Hm & R). exists p. split; [exact Hp|].
    rewrite T. simpl.
    assert (Ex : existsb (fun m => route_match h m (path p)) patterns = true).
    { apply existsb_exists. now exists m. }
    rewrite Ex. now left.
Qed.

Lemma writeAll_never_panics (h : Host) (d : Disk) (state : IGatsbyState)
    (w : World) (message : jsstring) :
  fst (writeAll h d state w) <> Panicked message.
Proof.
  unfold writeAll. rewrite getMatchPaths_spec. cbv zeta.
  destruct (option_eqb _ _); [discriminate|].
  unfold promiseAll. destruct (forallb snd _); discriminate.
Qed.

(** X7: [getMatchPaths] never panics: for every host and every page list
    it returns the stable sort, by the comparator read on the records, of
    the explicit records in page order followed by the implicit records in
    page order; so [writeAll] never ends in a panic either. *)
Theorem getMatchPaths_returns_sorted_records :
  forall (h : Host) (pages : list Page),
    getMatchPaths h pages
    = Ok (stable_sort (compareMatchPaths h) (MatchPathSpec.unsorted h pages))
    /\ (forall message, getMatchPaths h pages <> Panic message)
    /\ (forall d state w message,
          fst (writeAll h d state w) <> Panicked message).
Proof.
  intros h pages. pose proof (getMatchPaths_spec h pages) as G.
  split; [exact G|]. split.
  - intros message. rewrite G. discriminate.
  - intros d state w message. apply writeAll_never_panics.
Qed.

(** X8: the returned list holds exactly the records of the pages that
    carry a pattern of their own (truthy [matchPath], and mode SSG under
    the major-version-4 flag), and, for each page without a truthy
    [matchPath] whose path one of these patterns matches, the record with
    its path as [matchPath]. *)
Theorem getMatchPaths_members :
  forall (h : Host) (pages : list Page) (out : list IGatsbyPageMatchPath),
    getMatchPaths h pages = Ok out ->
    forall mp,
      In mp out <->
      (exists q,
         In q pages /\ hasPattern h q = true
         /\ matchPath q = Some (mp_matchPath mp) /\ mp_path mp = path q)
      \/ (exists p q m,
            In p pages /\ matchPath_truthy p = false
            /\ mp = mkMatchPath (path p) (path p)
            /\ In q pages /\ hasPattern h q = true /\ matchPath q = Some m
            /\ route_match h m (path p) = true).
Proof.
  intros h pages out G mp. rewrite getMatchPaths_spec in G.
  inversion G; subst out. clear G.
  rewrite stable_sort_In. unfold MatchPathSpec.unsorted.
  rewrite in_app_iff, explicitOf_In, implicitOf_In.
  split; (intros [Ex|Im]; [left; exact Ex | right]).
  - destruct Im as (p & m & Hp & T & E & Hm & R).
    apply patternsOf_In in Hm. destruct Hm as (q & Hq & Pq & Mq).
    now exists p, q, m.
  - destruct Im as (p & q & m & Hp & T & E & Hq & Pq & Mq & R).
    exists p, m. repeat split; try assumption.
    apply patternsOf_In. now exists q.
Qed.

Lemma getMatchPaths_members_witness :
  In (mkMatchPath (js "/app/settings") (js "/app/settings"))
    [mkMatchPath (js "/app/settings") (js "/app/settings");
     mkMatchPath (js "/app/*") (js "/app/*")]
  <-> (exists q,
         In q [appWildcard; appSettings] /\ hasPattern (host false false) q = true
         /\ matchPath q = Some (js "/app/settings")
         /\ js "/app/settings" = path q)
      \/ (exists p q m,
            In p [appWildcard; appSettings] /\ matchPath_truthy p = false
            /\ mkMatchPath (js "/app/settings") (js "/app/settings")
               = mkMatchPath (path p) (path p)
            /\ In q [appWildcard; appSettings]
            /\ hasPattern (host false false) q = true /\ matchPath q = Some m
            /\ route_match (host false false) m (path p) = true).
Proof.
  apply (getMatchPaths_members (host false false) [appWildcard; appSettings]).
  reflexivity.
Defined.

(** X9: [getMatchPaths] returns the empty list exactly when no page
    carries a pattern of its own; pages without patterns are then not
    matched at all. *)
Theorem getMatchPaths_empty_without_patterns :
  forall (h : Host) (pages : list Page),
    getMatchPaths h pages = Ok []
    <-> forall p, In p pages -> hasPattern h p = false.
Proof.
  intros h pages. split.
  - intros G p Hp. destruct (hasPattern h p) eqn:Has; [|reflexivity].
    exfalso.
    destruct (matchPath_truthy_Some _ (hasPattern_truthy _ _ Has)) as (m & Hm).
    rewrite getMatchPaths_spec in G. injection G as G.
    assert (Hin : In (mkMatchPath (path p) m)
                    (stable_sort (compareMatchPaths h)
                       (MatchPathSpec.unsorted h pages))).
    { apply stable_sort_In. apply in_or_app. left.
      apply explicitOf_In. now exists p. }
    rewrite G in Hin. destruct Hin.
  - intros None. rewrite getMatchPaths_spec. f_equal.
    assert (E : flat_map (MatchPathSpec.explicitOf h) pages = []).
    { apply flat_map_nil. intros p Hp. unfold MatchPathSpec.explicitOf.
      now rewrite (None p Hp). }
    unfold MatchPathSpec.unsorted, MatchPathSpec.patternsOf. rewrite E.
    simpl. rewrite flat_map_nil; [reflexivity|].
    intros p _. unfold MatchPathSpec.implicitOf. simpl.
    now rewrite andb_false_r.
Qed.

Lemma getMatchPaths_empty_without_patterns_witness :
  getMatchPaths (host true false) [ssrPage; appSettings] = Ok [].
Proof.
  apply (getMatchPaths_empty_without_patterns (host true false)
           [ssrPage; appSettings]).
  intros p [<-|[<-|[]]]; reflexivity.
Defined.

Lemma flat_map_pair_length {A B : Type} (f g : A -> list B) (l : list A) :
  (forall x, (List.length (f x) + List.length (g x) <= 1)%nat) ->
  (List.length (flat_map f l ++ flat_map g l) <= List.length l)%nat.
Proof.
  intros H. rewrite length_app.
  induction l as [|a l IH]; simpl; [lia|].
  rewrite !length_app. specialize (H a). lia.
Qed.

(** X10: every page gives at most one record: the returned list is never
    longer than the page list. *)
Theorem getMatchPaths_length :
  forall (h : Host) (pages : list Page) (out : list IGatsbyPageMatchPath),
    getMatchPaths h pages = Ok out ->
    (List.length out <= List.length pages)%nat.
Proof.
  intros h pages out G. rewrite getMatchPaths_spec in G.
  inversion G; subst out. clear G.
  rewrite (Permutation_length (stable_sort_perm _ _)).
  apply flat_map_pair_length. intros p.
  unfold MatchPathSpec.explicitOf, MatchPathSpec.implicitOf.
  destruct (hasPattern h p) eqn:Has.
  - rewrite (hasPattern_truthy _ _ Has). simpl.
    destruct (matchPath p); simpl; lia.
  - simpl. destruct (negb (matchPath_truthy p) && _); simpl; lia.
Qed.

Lemma getMatchPaths_length_witness :
  (List.length
     [mkMatchPath (js "/app/settings") (js "/app/settings");
      mkMatchPath (js "/app/*") (js "/app/*")]
   <= List.length [appWildcard; appSettings])%nat.
Proof.
  apply (getMatchPaths_length (host false false)). reflexivity.
Defined.

Lemma compareMatchPaths_score (h : Host) (a b : IGatsbyPageMatchPath) :
  (compareMatchPaths h a b <= 0 ->
   rankRoute (mp_matchPath b) <= rankRoute (mp_matchPath a))
  /\ (compareMatchPaths h a b > 0 ->
      rankRoute (mp_matchPath a) <= rankRoute (mp_matchPath b)).
Proof.
  unfold compareMatchPaths. cbv zeta.
  destruct (Z.eqb_spec
              (rankRoute (mp_matchPath b) - rankRoute (mp_matchPath a)) 0);
    simpl; split; lia.
Qed.

(** X11: whatever [localeCompare] answers, the returned list descends by
    rank: an entry never comes before an entry whose [matchPath] ranks
    higher. *)
Theorem getMatchPaths_descends_by_rank :
  forall (h : Host) (pages : list Page) (out : list IGatsbyPageMatchPath),
    getMatchPaths h pages = Ok out ->
    StronglySorted
      (fun a b => rankRoute (mp_matchPath b) <= rankRoute (mp_matchPath a))
      out
    /\ forall l1 a l2 b l3,
         out = l1 ++ a :: l2 ++ b :: l3 ->
         rankRoute (mp_matchPath b) <= rankRoute (mp_matchPath a).
Proof.
  intros h pages out G. rewrite getMatchPaths_spec in G.
  inversion G; subst out. clear G.
  assert (S : StronglySorted
                (fun a b =>
                   rankRoute (mp_matchPath b) <= rankRoute (mp_matchPath a))
                (stable_sort (compareMatchPaths h)
                   (MatchPathSpec.unsorted h pages))).
  { apply stable_sort_sorted.
    - intros x y z Hxy Hyz. lia.
    - intros x y. apply compareMatchPaths_score.
    - intros x y. apply compareMatchPaths_score. }
  split; [exact S|].
  intros l1 a l2 b l3 E. rewrite E in S.
  apply (StronglySorted_later _ l1 (l2 ++ b :: l3) a b S).
  apply in_or_app. right. now left.
Qed.

Lemma getMatchPaths_descends_by_rank_witness :
  rankRoute (js "/app/*") <= rankRoute (js "/app/settings").
Proof.
  destruct (getMatchPaths_descends_by_rank (host false false)
              [appWildcard; appSettings]
              [mkMatchPath (js "/app/settings") (js "/app/settings");
               mkMatchPath (js "/app/*") (js "/app/*")] eq_refl)
    as (_ & Order).
  apply (Order [] (mkMatchPath (js "/app/settings") (js "/app/settings")) []
           (mkMatchPath (js "/app/*") (js "/app/*")) []).
  reflexivity.
Defined.

Lemma compareMatchPaths_le (h : Host) (a b : IGatsbyPageMatchPath) :
  compareMatchPaths h a b <= 0 <->
  rankRoute (mp_matchPath b) < rankRoute (mp_matchPath a)
  \/ (rankRoute (mp_matchPath b) = rankRoute (mp_matchPath a)
      /\ localeCompare h (mp_matchPath a) (mp_matchPath b) <= 0).
Proof.
  unfold compareMatchPaths. cbv zeta.
  destruct (Z.eqb_spec
              (rankRoute (mp_matchPath b) - rankRoute (mp_matchPath a)) 0);
    simpl; (split; [intros H | intros [H|(E & H)]]);
    first [ lia | exact H | (right; split; [lia | exact H]) | (left; lia) ].
Qed.

Lemma getMatchPaths_sorted (h : Host) (pages : list Page) :
  (forall a b, localeCompare h a b > 0 -> localeCompare h b a <= 0) ->
  (forall a b c, localeCompare h a b <= 0 -> localeCompare h b c <= 0 ->
                 localeCompare h a c <= 0) ->
  StronglySorted (fun a b => compareMatchPaths h a b <= 0)
    (stable_sort (compareMatchPaths h) (MatchPathSpec.unsorted h pages)).
Proof.
  intros Total Trans. apply stable_sort_sorted.
  - intros x y z Hxy Hyz. apply compareMatchPaths_le in Hxy, Hyz.
    apply compareMatchPaths_le.
    destruct Hxy as [Hxy|(Exy & Lxy)], Hyz as [Hyz|(Eyz & Lyz)];
      try (left; lia).
    right. split; [lia|]. eapply Trans; eassumption.
  - intros x y H. exact H.
  - intros x y H. apply compareMatchPaths_le.
    unfold compareMatchPaths in H. cbv zeta in H.
    destruct (Z.eqb_spec
                (rankRoute (mp_matchPath y) - rankRoute (mp_matchPath x)) 0);
      simpl in H.
    + right. split; [lia | now apply Total].
    + left. lia.
Qed.

(** X12: where [localeCompare] is a total preorder, entries of equal rank
    are ordered by [localeCompare] of their [matchPath]: of two entries
    with the same rank, the later one never compares below the earlier
    one. *)
Theorem getMatchPaths_ties_by_localeCompare :
  forall (h : Host) (pages : list Page) (out : list IGatsbyPageMatchPath),
    (forall a b, localeCompare h a b > 0 -> localeCompare h b a <= 0) ->
    (forall a b c, localeCompare h a b <= 0 -> localeCompare h b c <= 0 ->
                   localeCompare h a c <= 0) ->
    getMatchPaths h pages = Ok out ->
    forall l1 a l2 b l3,
      out = l1 ++ a :: l2 ++ b :: l3 ->
      rankRoute (mp_matchPath a) = rankRoute (mp_matchPath b) ->
      localeCompare h (mp_matchPath a) (mp_matchPath b) <= 0.
Proof.
  intros h pages out Total Trans G l1 a l2 b l3 E Tie.
  rewrite getMatchPaths_spec in G. injection G as <-.
  pose proof (getMatchPaths_sorted h pages Total Trans) as S.
  rewrite E in S.
  assert (Le : compareMatchPaths h a b <= 0).
  { apply (StronglySorted_later _ l1 (l2 ++ b :: l3) a b S).
    apply in_or_app. right. now left. }
  apply compareMatchPaths_le in Le. destruct Le as [Lt|(_ & Le)]; [lia|].
  exact Le.
Qed.

Lemma unitCompare_le (a b : jsstring) :
  unitCompare a b <= 0 <-> ltb b a = false.
Proof.
  unfold unitCompare. destruct (ltb a b) eqn:Lab.
  - rewrite (ltb_asym _ _ Lab). split; [reflexivity | lia].
  - destruct (ltb b a); split; intros; (lia || discriminate || reflexivity).
Qed.

Lemma unitCompare_total (a b : jsstring) :
  unitCompare a b > 0 -> unitCompare b a <= 0.
Proof.
  intros H. apply unitCompare_le.
  destruct (ltb a b) eqn:Lab; [|reflexivity].
  exfalso. unfold unitCompare in H. rewrite Lab in H. lia.
Qed.

Lemma unitCompare_trans (a b c : jsstring) :
  unitCompare a b <= 0 -> unitCompare b c <= 0 -> unitCompare a c <= 0.
Proof.
  rewrite !unitCompare_le. intros Hab Hbc. eapply geb_trans; eassumption.
Qed.

Lemma unitCompare_antisym (a b : jsstring) :
  unitCompare a b <= 0 -> unitCompare b a <= 0 -> a = b.
Proof.
  rewrite !unitCompare_le. intros Hab Hba. now apply ltb_trichotomy.
Qed.

Lemma getMatchPaths_ties_by_localeCompare_witness :
  localeCompare (host false false) (js "/x/*") (js "/y/*") <= 0.
Proof.
  apply (getMatchPaths_ties_by_localeCompare (host false false)
           [mkPage (js "/y") (js "y.js") (js "component---y")
              (Some (js "/y/*"));
            mkPage (js "/x") (js "x.js") (js "component---x")
              (Some (js "/x/*"))]
           [mkMatchPath (js "/x") (js "/x/*");
            mkMatchPath (js "/y") (js "/y/*")]
           unitCompare_total unitCompare_trans eq_refl
           [] (mkMatchPath (js "/x") (js "/x/*")) []
           (mkMatchPath (js "/y") (js "/y/*")) []);
    reflexivity.
Defined.

Lemma existsb_Permutation {A : Type} (f : A -> bool) (l l' : list A) :
  Permutation l l' -> existsb f l = existsb f l'.
Proof.
  intros P. induction P as [|x l l' P IH|x y l|l l' l'' P1 IH1 P2 IH2]; simpl.
  - reflexivity.
  - now rewrite IH.
  - destruct (f x), (f y); reflexivity.
  - now rewrite IH1.
Qed.

Lemma unsorted_Permutation (h : Host) (pages pages' : list Page) :
  Permutation pages pages' ->
  Permutation (MatchPathSpec.unsorted h pages)
    (MatchPathSpec.unsorted h pages').
Proof.
  intros P. unfold MatchPathSpec.unsorted.
  apply Permutation_app.
  - now apply Permutation_flat_map.
  - assert (E : forall p,
              MatchPathSpec.implicitOf h (MatchPathSpec.patternsOf h pages) p
              = MatchPathSpec.implicitOf h
                  (MatchPathSpec.patternsOf h pages') p).
    { intros p. unfold MatchPathSpec.implicitOf.
      rewrite (existsb_Permutation _
                 (MatchPathSpec.patternsOf h pages)
                 (MatchPathSpec.patternsOf h pages')); [reflexivity|].
      unfold MatchPathSpec.patternsOf.
      apply Permutation_map. now apply Permutation_flat_map. }
    rewrite (flat_map_ext _ _ E). now apply Permutation_flat_map.
Qed.

Lemma sorted_Permutation_eq {A : Type} (R : A -> A -> Prop) (l1 : list A) :
  forall l2 : list A,
    StronglySorted R l1 -> StronglySorted R l2 -> Permutation l1 l2 ->
    (forall a b, In a l1 -> In b l1 -> R a b -> R b a -> a = b) ->
    l1 = l2.
Proof.
  induction l1 as [|a t1 IH]; intros l2 S1 S2 P Anti.
  - apply Permutation_nil in P. now subst.
  - destruct l2 as [|b t2];
      [apply Permutation_sym, Permutation_nil in P; discriminate|].
    inversion S1 as [|? ? St1 F1]; subst.
    inversion S2 as [|? ? St2 F2]; subst.
    rewrite Forall_forall in F1, F2.
    assert (a = b) as ->.
    { assert (Ha : In a (b :: t2)) by (apply (Permutation_in _ P); now left).
      assert (Hb : In b (a :: t1))
        by (apply (Permutation_in _ (Permutation_sym P)); now left).
      destruct Ha as [E|Ha]; [now symmetry|].
      destruct Hb as [E|Hb]; [exact E|].
      apply Anti; [now left | now right | now apply F1 | now apply F2]. }
    f_equal. apply IH; try assumption.
    + now apply Permutation_cons_inv in P.
    + intros x y Hx Hy. apply Anti; now right.
Qed.

Lemma NoDup_map_In_eq {A B : Type} (f : A -> B) (l : list A) (a b : A) :
  NoDup (map f l) -> In a l -> In b l -> f a = f b -> a = b.
Proof.
  induction l as [|x l IH]; intros N Ha Hb E; [destruct Ha|].
  simpl in N. inversion N as [|? ? Nx Nl]; subst.
  destruct Ha as [<-|Ha], Hb as [<-|Hb].
  - reflexivity.
  - exfalso. apply Nx. rewrite E. now apply in_map.
  - exfalso. apply Nx. rewrite <- E. now apply in_map.
  - now apply IH.
Qed.

(** X13: where [localeCompare] is a total order (a total preorder that
    answers 0 only on equal strings) and no two returned entries share a
    [matchPath], the returned list does not depend on the order of the
    pages. *)
Theorem getMatchPaths_order_independent :
  forall (h : Host) (pages pages' : list Page)
         (out : list IGatsbyPageMatchPath),
    (forall a b, localeCompare h a b > 0 -> localeCompare h b a <= 0) ->
    (forall a b c, localeCompare h a b <= 0 -> localeCompare h b c <= 0 ->
                   localeCompare h a c <= 0) ->
    (forall a b, localeCompare h a b <= 0 -> localeCompare h b a <= 0 ->
                 a = b) ->
    Permutation pages pages' ->
    getMatchPaths h pages = Ok out ->
    NoDup (map mp_matchPath out) ->
    getMatchPaths h pages' = Ok out.
Proof.
  intros h pages pages' out Total Trans Anti P G N.
  rewrite getMatchPaths_spec in G. injection G as <-.
  rewrite getMatchPaths_spec. f_equal. symmetry.
  apply (sorted_Permutation_eq (fun a b => compareMatchPaths h a b <= 0)).
  - now apply getMatchPaths_sorted.
  - now apply getMatchPaths_sorted.
  - eapply perm_trans; [apply stable_sort_perm|].
    eapply perm_trans; [apply unsorted_Permutation, P|].
    apply Permutation_sym, stable_sort_perm.
  - intros a b Ha Hb Lab Lba.
    apply compareMatchPaths_le in Lab, Lba.
    apply (NoDup_map_In_eq mp_matchPath _ a b N Ha Hb).
    destruct Lab as [Lab|(Eab & Lab)], Lba as [Lba|(Eba & Lba)]; try lia.
    now apply Anti.
Qed.

Lemma getMatchPaths_order_independent_witness :
  getMatchPaths (host false false) [appSettings; appWildcard]
  = Ok [mkMatchPath (js "/app/settings") (js "/app/settings");
        mkMatchPath (js "/app/*") (js "/app/*")].
Proof.
  apply (getMatchPaths_order_independent (host false false)
           [appWildcard; appSettings] [appSettings; appWildcard]).
  - exact unitCompare_total.
  - exact unitCompare_trans.
  - exact unitCompare_antisym.
  - apply perm_swap.
  - reflexivity.
  - simpl. constructor.
    + intros [E|[]]. vm_compute in E. discriminate.
    + constructor; [intros [] | constructor].
Defined.

(** ** writeAll, further *)

Lemma fingerprint_decide (a : option jsstring) (b : jsstring) :
  a = Some b \/ a <> Some b.
Proof.
  destruct (option_eqb a b) eqn:E.
  - left. now apply option_eqb_eq.
  - right. intros C. apply option_eqb_eq in C. congruence.
Qed.

(** X14: after every run, whether it skipped, wrote, or was rejected,
    [lastHash] is the fingerprint of the state the run was given, and the
    log of effects has only grown. *)
Theorem lastHash_is_fingerprint_after_run :
  forall (h : Host) (d : Disk) (state : IGatsbyState) (w : World),
    exists matchPaths es,
      getMatchPaths h (pages state) = Ok matchPaths
      /\ lastHash (snd (writeAll h d state w))
         = Some (createHash h matchPaths (getComponents (pages state))
                   (cleanedSSRVisitedPageComponents h state
                      (getComponents (pages state))))
      /\ effects (snd (writeAll h d state w)) = effects w ++ es.
Proof.
  intros h d state w.
  destruct (getMatchPaths_total h (pages state)) as (entries & _ & G).
  eexists.
  destruct (fingerprint_decide (lastHash w)
              (createHash h
                 (map projectEntry (stable_sort (compareEntries h) entries))
                 (getComponents (pages state))
                 (cleanedSSRVisitedPageComponents h state
                    (getComponents (pages state))))) as [Same|Diff].
  - exists []. split; [exact G|].
    rewrite (writeAll_unchanged h d state w _ G Same). cbn [snd].
    split; [exact Same | now rewrite app_nil_r].
  - eexists. split; [exact G|].
    rewrite (writeAll_changed h d state w _ G Diff). cbn [snd lastHash effects].
    split; reflexivity.
Qed.

(** X15: after [resetLastHash] the next run never skips: it resolves to
    [true] or is rejected, and it writes, even when the state is the one
    that was just emitted. *)
Theorem resetLastHash_forces_emission :
  forall (h : Host) (d d' : Disk) (state : IGatsbyState) (w : World),
    lastHash (resetLastHash w) = None
    /\ effects (resetLastHash w) = effects w
    /\ fst (writeAll h d state (resetLastHash w)) <> Resolved false
    /\ fst (writeAll h d' state
              (resetLastHash (snd (writeAll h d state w))))
       <> Resolved false
    /\ exists es,
         es <> []
         /\ effects (snd (writeAll h d state (resetLastHash w)))
            = effects w ++ es.
Proof.
  intros h d d' state w.
  destruct (getMatchPaths_total h (pages state)) as (entries & _ & G).
  assert (Forced : forall d0 w0,
            writeAll h d0 state (resetLastHash w0)
            = (if forallb snd
                    (artifactWrites h d0 state
                       (map projectEntry
                          (stable_sort (compareEntries h) entries))
                       (getComponents (pages state)))
               then Resolved true else Rejected,
               snd (writeAll h d0 state (resetLastHash w0)))).
  { intros d0 w0.
    rewrite (writeAll_changed h d0 state (resetLastHash w0) _ G)
      by discriminate.
    reflexivity. }
  split; [reflexivity|]. split; [reflexivity|]. split; [|split].
  - rewrite Forced. cbn [fst]. destruct (forallb snd _); discriminate.
  - rewrite Forced. cbn [fst]. destruct (forallb snd _); discriminate.
  - rewrite (writeAll_changed h d state (resetLastHash w) _ G) by discriminate.
    cbn [snd effects resetLastHash]. eexists. split; [|reflexivity].
    intros Nil. apply app_eq_nil in Nil. destruct Nil as (_ & Nil).
    destruct (artifactWrites_effects h d state
                (map projectEntry (stable_sort (compareEntries h) entries))
                (getComponents (pages state))) as (Hin & _).
    rewrite Nil in Hin. destruct Hin.
Qed.




Lemma writeAndMove_fulfilled (h : Host) (d : Disk)
    (directory virtualFilePath file data : jsstring) :
  snd (writeAndMove h d directory virtualFilePath file data) = true ->
  fst (writeAndMove h d directory virtualFilePath file data)
  = [WriteModule virtualFilePath data;
     WriteFile
       (joinPath h [directory; js ".cache"; file] ++ js "."
        ++ date_now d (joinPath h [directory; js ".cache"; file]))
       data;
     Move
       (joinPath h [directory; js ".cache"; file] ++ js "."
        ++ date_now d (joinPath h [directory; js ".cache"; file]))
       (joinPath h [directory; js ".cache"; file])].
Proof.
  unfold writeAndMove. cbv zeta.
  destruct (writeFile_ok d _); [destruct (move_ok d _ _)|];
    cbn [fst snd]; (reflexivity || discriminate).
Qed.

Lemma writeAndMove_module_first (h : Host) (d : Disk)
    (directory virtualFilePath file data : jsstring) :
  In (WriteModule virtualFilePath data)
    (fst (writeAndMove h d directory virtualFilePath file data)).
Proof.
  destruct (writeAndMove_effects h d directory virtualFilePath file data)
    as (rest & -> & _).
  now left.
Qed.

(** X17: a run that does not skip writes all three virtual modules,
    whatever the disk does, so also when it is rejected; a run that
    resolves to [true] has written each of the three files to a temporary
    name and moved it to its place under [.cache]. *)
Theorem writeAll_modules_always_files_when_fulfilled :
  forall (h : Host) (d : Disk) (state : IGatsbyState) (w : World),
    fst (writeAll h d state w) <> Resolved false ->
    exists matchPaths es,
      getMatchPaths h (pages state) = Ok matchPaths
      /\ effects (snd (writeAll h d state w)) = effects w ++ es
      /\ In (WriteModule (js "$virtual/sync-requires.js")
               (syncRequires h (getComponents (pages state)))) es
      /\ In (WriteModule (js "$virtual/async-requires.js")
               (asyncRequires h (getComponents (pages state)))) es
      /\ In (WriteModule (js "$virtual/match-paths.json")
               (stringify_pretty h matchPaths)) es
      /\ (fst (writeAll h d state w) = Resolved true ->
          forall file data,
            In (file, data)
              [(js "sync-requires.js",
                syncRequires h (getComponents (pages state)));
               (js "async-requires.js",
                asyncRequires h (getComponents (pages state)));
               (js "match-paths.json", stringify_pretty h matchPaths)] ->
            exists tmp,
              In (WriteFile tmp data) es
              /\ In (Move tmp
                       (joinPath h [program_directory state; js ".cache"; file]))
                   es).
Proof.
  intros h d state w NotSkipped.
  destruct (getMatchPaths_total h (pages state)) as (entries & _ & G).
  destruct (fingerprint_decide (lastHash w)
              (createHash h
                 (map projectEntry (stable_sort (compareEntries h) entries))
                 (getComponents (pages state))
                 (cleanedSSRVisitedPageComponents h state
                    (getComponents (pages state))))) as [Same|Diff].
  { rewrite (writeAll_unchanged h d state w _ G Same) in NotSkipped.
    now elim NotSkipped. }
  rewrite (writeAll_changed h d state w _ G Diff). cbn [fst snd effects].
  eexists. eexists. split; [exact G|]. split; [reflexivity|].
  unfold artifactWrites. cbn [map List.concat forallb].
  rewrite app_nil_r.
  split; [apply in_or_app; right; apply in_or_app; left;
          apply writeAndMove_module_first|].
  split; [apply in_or_app; right; apply in_or_app; right;
          apply in_or_app; left; apply writeAndMove_module_first|].
  split; [apply in_or_app; right; apply in_or_app; right;
          apply in_or_app; right; apply writeAndMove_module_first|].
  intros Fulfilled file data Hin.
  destruct (snd (writeAndMove h d (program_directory state)
                   (js "$virtual/sync-requires.js") (js "sync-requires.js")
                   (syncRequires h (getComponents (pages state)))))
    eqn:Ok1; [|discriminate Fulfilled].
  destruct (snd (writeAndMove h d (program_directory state)
                   (js "$virtual/async-requires.js") (js "async-requires.js")
                   (asyncRequires h (getComponents (pages state)))))
    eqn:Ok2; [|discriminate Fulfilled].
  destruct (snd (writeAndMove h d (program_directory state)
                   (js "$virtual/match-paths.json") (js "match-paths.json")
                   (stringify_pretty h
                      (map projectEntry
                         (stable_sort (compareEntries h) entries)))))
    eqn:Ok3; [|discriminate Fulfilled].
  rewrite (writeAndMove_fulfilled _ _ _ _ _ _ Ok1),
    (writeAndMove_fulfilled _ _ _ _ _ _ Ok2),
    (writeAndMove_fulfilled _ _ _ _ _ _ Ok3).
  destruct Hin as [E|[E|[E|[]]]]; inversion E; subst; eexists;
    (split; apply in_or_app; right; simpl; tauto).
Qed.

Lemma writeAll_modules_always_files_when_fulfilled_witness :
  exists matchPaths es,
    getMatchPaths (host false false) (pages appState) = Ok matchPaths
    /\ effects (snd (writeAll (host false false) fullDisk appState emptyWorld))
       = effects emptyWorld ++ es
    /\ In (WriteModule (js "$virtual/match-paths.json")
             (stringify_pretty (host false false) matchPaths)) es.
Proof.
  destruct (writeAll_modules_always_files_when_fulfilled (host false false)
              fullDisk appState emptyWorld)
    as (matchPaths & es & G & E & _ & _ & M & _).
  - vm_compute. discriminate.
  - now exists matchPaths, es.
Defined.

(** ** The debounced pass and the listener *)

Module ListenerFacts.
Import Listener.

(** X18: a pass starts the activity timer first and ends it only when
    [writeAll] is fulfilled, that is when the fingerprint is unchanged or
    all three writes went through; after a rejected [writeAll] the timer is
    left running.  The pass leaves the world as [writeAll] leaves it. *)
Theorem debouncedPass_ends_activity_only_when_fulfilled :
  forall (h : Host) (d : Disk) (state : IGatsbyState) (w : World),
    exists matchPaths,
      getMatchPaths h (pages state) = Ok matchPaths
      /\ hd_error (fst (debouncedPass h d state w)) = Some ActivityStart
      /\ snd (debouncedPass h d state w) = writeAll h d state w
      /\ (In ActivityEnd (fst (debouncedPass h d state w)) <->
          lastHash w
          = Some (createHash h matchPaths (getComponents (pages state))
                    (cleanedSSRVisitedPageComponents h state
                       (getComponents (pages state))))
          \/ forallb snd
               (artifactWrites h d state matchPaths
                  (getComponents (pages state))) = true)
      /\ (fst (writeAll h d state w) = Rejected ->
          fst (debouncedPass h d state w) = [ActivityStart]).
Proof.
  intros h d state w.
  destruct (getMatchPaths_total h (pages state)) as (entries & _ & G).
  eexists. split; [exact G|].
  unfold debouncedPass. cbv zeta.
  destruct (fingerprint_decide (lastHash w)
              (createHash h
                 (map projectEntry (stable_sort (compareEntries h) entries))
                 (getComponents (pages state))
                 (cleanedSSRVisitedPageComponents h state
                    (getComponents (pages state))))) as [Same|Diff].
  - rewrite (writeAll_unchanged h d state w _ G Same). cbn [fst snd hd_error].
    split; [reflexivity|]. split; [reflexivity|].
    split; [|discriminate].
    split; [intros _; now left | intros _; right; now left].
  - rewrite (writeAll_changed h d state w _ G Diff). cbn [fst snd].
    destruct (forallb snd _); cbn [hd_error].
    + split; [reflexivity|]. split; [reflexivity|].
      split; [|discriminate].
      split; [intros _; now right | intros _; right; now left].
    + split; [reflexivity|]. split; [reflexivity|].
      split; [|reflexivity].
      split; [intros [E|[]]; discriminate|].
      intros [Same|F]; [contradiction | discriminate].
Qed.

Lemma debouncedPass_ends_activity_only_when_fulfilled_witness :
  fst (debouncedPass (host false false) fullDisk appState emptyWorld)
  = [ActivityStart].
Proof.
  destruct (debouncedPass_ends_activity_only_when_fulfilled
              (host false false) fullDisk appState emptyWorld)
    as (matchPaths & _ & _ & _ & _ & Left).
  apply Left. vm_compute. reflexivity.
Defined.

Lemma handlersOf_on (name registered : jsstring) (handler : Handler)
    (s : ListenerState) :
  handlersOf name (on registered handler s)
  = handlersOf name s ++ (if eqb registered name then [handler] else []).
Proof.
  unfold handlersOf, on. cbn [subscriptions].
  rewrite filter_app, map_app. simpl.
  destruct (eqb registered name); reflexivity.
Qed.

Lemma startListener_started (h : Host) (s : ListenerState) :
  listenerStarted (startListener h s) = true.
Proof.
  unfold startListener. destruct (listenerStarted s) eqn:E; [exact E|].
  cbv zeta. destruct (GATSBY_EXPERIMENTAL_DEV_SSR h); reflexivity.
Qed.

Lemma startListener_again (h : Host) (s : ListenerState) (n : nat) :
  Nat.iter (S n) (startListener h) s = startListener h s.
Proof.
  induction n as [|n IH]; [reflexivity|].
  change (Nat.iter (S (S n)) (startListener h) s)
    with (startListener h (Nat.iter (S n) (startListener h) s)).
  rewrite IH. unfold startListener at 1.
  now rewrite startListener_started.
Qed.

Lemma startListener_handlers (h : Host) (s : ListenerState) (name : jsstring) :
  listenerStarted s = false ->
  handlersOf name (startListener h s)
  = handlersOf name s
    ++ (if GATSBY_EXPERIMENTAL_DEV_SSR h
        then if eqb (js "CREATE_SERVER_VISITED_PAGE") name
             then [serverVisitedHandler] else []
        else [])
    ++ (if eqb (js "CREATE_PAGE") name then [pageHandler] else [])
    ++ (if eqb (js "CREATE_PAGE_END") name then [pageHandler] else [])
    ++ (if eqb (js "DELETE_PAGE") name then [pageHandler] else [])
    ++ (if eqb (js "DELETE_PAGE_BY_PATH") name then [pageHandler] else []).
Proof.
  intros Fresh. unfold startListener. rewrite Fresh. cbv zeta.
  rewrite !handlersOf_on.
  destruct (GATSBY_EXPERIMENTAL_DEV_SSR h).
  - rewrite handlersOf_on. unfold handlersOf. cbn [subscriptions].
    now rewrite <- !app_assoc.
  - unfold handlersOf. cbn [subscriptions]. now rewrite <- !app_assoc.
Qed.

(** X19: however often [startListener] is called, the handlers are
    registered once: after one call or more on a listener that was not
    started, each of the four page events has exactly one handler more than
    before, and a started listener is left as it is. *)
Theorem startListener_registers_once :
  forall (h : Host) (s : ListenerState) (n : nat),
    (listenerStarted s = true -> startListener h s = s)
    /\ Nat.iter (S n) (startListener h) s = startListener h s
    /\ (listenerStarted s = false ->
        forall name, In name pageEvents ->
          handlersOf name (Nat.iter (S n) (startListener h) s)
          = handlersOf name s ++ [pageHandler]).
Proof.
  intros h s n.
  split; [intros Started; unfold startListener; now rewrite Started|].
  split; [apply startListener_again|].
  intros Fresh name Hin. rewrite startListener_again.
  rewrite (startListener_handlers h s name Fresh).
  f_equal.
  destruct Hin as [<-|[<-|[<-|[<-|[]]]]];
    destruct (GATSBY_EXPERIMENTAL_DEV_SSR h); reflexivity.
Qed.

Lemma startListener_registers_once_witness :
  handlersOf (js "DELETE_PAGE")
    (Nat.iter 3 (startListener (host false true)) fresh)
  = handlersOf (js "DELETE_PAGE") fresh ++ [pageHandler].
Proof.
  destruct (startListener_registers_once (host false true) fresh 2)
    as (_ & _ & Once).
  apply Once; [reflexivity|]. right. right. now left.
Defined.

(** X20: the server-visited event gets a handler exactly when the
    server-rendering flag is on; every handler a start registers calls the
    debounced [writeAll] once, as its last step, right after marking the
    activity [requires-writer] pending; and a start subscribes to no event
    other than these five. *)
Theorem startListener_handlers_debounce :
  forall (h : Host) (s : ListenerState),
    listenerStarted s = false ->
    handlersOf (js "CREATE_SERVER_VISITED_PAGE") (startListener h s)
    = handlersOf (js "CREATE_SERVER_VISITED_PAGE") s
      ++ (if GATSBY_EXPERIMENTAL_DEV_SSR h then [serverVisitedHandler] else [])
    /\ (forall name,
          ~ In name (js "CREATE_SERVER_VISITED_PAGE" :: pageEvents) ->
          handlersOf name (startListener h s) = handlersOf name s)
    /\ (exists added,
          subscriptions (startListener h s) = subscriptions s ++ added
          /\ forall name handler, In (name, handler) added ->
               exists before,
                 handler
                 = before ++ [PendingActivity (js "requires-writer");
                              CallDebouncedWriteAll]
                 /\ ~ In CallDebouncedWriteAll before).
Proof.
  intros h s Fresh. split; [|split].
  - rewrite (startListener_handlers h s _ Fresh).
    f_equal. destruct (GATSBY_EXPERIMENTAL_DEV_SSR h); reflexivity.
  - intros name Not. rewrite (startListener_handlers h s name Fresh).
    assert (Ne : forall e, In e (js "CREATE_SERVER_VISITED_PAGE" :: pageEvents)
                           -> eqb e name = false).
    { intros e He. apply eqb_neq. intros ->. now apply Not. }
    rewrite (Ne (js "CREATE_SERVER_VISITED_PAGE")) by now left.
    rewrite (Ne (js "CREATE_PAGE")) by (right; now left).
    rewrite (Ne (js "CREATE_PAGE_END")) by (right; right; now left).
    rewrite (Ne (js "DELETE_PAGE")) by (right; right; right; now left).
    rewrite (Ne (js "DELETE_PAGE_BY_PATH"))
      by (right; right; right; right; now left).
    destruct (GATSBY_EXPERIMENTAL_DEV_SSR h); now rewrite !app_nil_r.
  - unfold startListener. rewrite Fresh. cbv zeta. unfold on.
    cbn [subscriptions listenerStarted].
    destruct (GATSBY_EXPERIMENTAL_DEV_SSR h); cbn [subscriptions];
      rewrite <- !app_assoc; eexists; (split; [reflexivity|]);
      intros name handler Hin; simpl in Hin;
      repeat (destruct Hin as [E|Hin];
              [inversion E; subst; clear E|]); try destruct Hin.
    all: first
      [ (exists [CallDevSSRWillInvalidate]; split; [reflexivity|];
         intros [C|[]]; discriminate)
      | (exists []; split; [reflexivity|]; intros []) ].
Qed.

Lemma startListener_handlers_debounce_witness :
  handlersOf (js "CREATE_SERVER_VISITED_PAGE")
    (startListener (host false false) fresh)
  = handlersOf (js "CREATE_SERVER_VISITED_PAGE") fresh ++ [].
Proof.
  destruct (startListener_handlers_debounce (host false false) fresh eq_refl)
    as (Server & _).
  exact Server.
Defined.

End ListenerFacts.

(** ** Pages without a matchPath *)



